(** * rbf.stencil: boundary-aware nearest neighbours and stencil networks

    A shallow embedding of [src/rbf/stencil.py].

    Conventions of the embedding.
    - A coordinate is an integer; a point is a list of coordinates.  The
      value [np.sqrt(r)] is carried by its radicand, [Sqrt r], so that the
      order and the zero test on distances are exact; [np.inf] is [Inf].
    - A 2-D array is the list of its rows.  A shape [(Q, N)] is read as:
      [Q] rows, each of length [N].  The rows of the query and of the
      population have one common length.
    - [scipy.spatial.cKDTree] is not code of the repository; it enters as a
      function [knn] (the indices of the k nearest points, nearest first)
      together with the laws of its documentation, [cKDTree_spec].
    - [rbf.geometry.intersection_count] and [networkx.node_connectivity]
      enter as functions, without laws: the batched oracle by its count
      for one segment (it keeps the order of its batch and accepts an
      empty one), the graph library by its value on an edge list.
    - Python exceptions are the values of [exn]; loops carry a fuel, and
      the theorems show that the fuel given by the callers is enough. *)
From Stdlib Require Import ZArith Lia.
From stdpp Require Import base decidable option numbers list sorting.

Local Open Scope Z_scope.

(** ** Arrays, distances, exceptions *)

Definition point := list Z.
Definition simplex := list Z.

(** What [np.asarray] gives for the arguments [query], [population] and
    [nodes]: only a 2-D array is a table of points. *)
Inductive ndarray : Type :=
  | Arr0 (x : Z)
  | Arr1 (v : list Z)
  | Arr2 (rows : list point)
  | Arr3 (blocks : list (list point)).

Definition ndim (a : ndarray) : nat :=
  match a with Arr0 _ => 0 | Arr1 _ => 1 | Arr2 _ => 2 | Arr3 _ => 3 end%nat.

(** [a.shape[0]]; a 0-d array has an empty shape tuple. *)
Definition shape0 (a : ndarray) : option nat :=
  match a with
  | Arr0 _ => None
  | Arr1 v => Some (length v)
  | Arr2 rows => Some (length rows)
  | Arr3 blocks => Some (length blocks)
  end.

Definition rows_of (a : ndarray) : list point :=
  match a with Arr2 rows => rows | _ => [] end.

(** An array of rank [rank] with entries in [A]. *)
Fixpoint nd (A : Type) (rank : nat) : Type :=
  match rank with
  | O => A
  | S r => list (nd A r)
  end.

Inductive dist : Type :=
  | Sqrt (radicand : Z)
  | Inf.

Definition isinf (d : dist) : bool :=
  match d with Inf => true | Sqrt _ => false end.

(** [d != 0.0] *)
Definition nonzero (d : dist) : bool :=
  match d with Inf => true | Sqrt r => negb (r =? 0) end.

Definition dist_leb (a b : dist) : bool :=
  match a, b with
  | Sqrt x, Sqrt y => x <=? y
  | _, Inf => true
  | Inf, Sqrt _ => false
  end.

Definition dist_le (a b : dist) : Prop := dist_leb a b = true.

Inductive message : Type :=
  | QueryNot2D
  | PopulationNot2D
  | TooFewPoints (N : Z) (P : nat)
  | NegativeCount
  | CrossingBoundary (N : Z) (q : point)
  | NoSuchConnectivity.

(** [StencilError] is the module's own exception; [ArrayError] stands for
    what numpy raises on a bad index ([IndexError], [TypeError]). *)
Inductive exn : Type :=
  | StencilError (m : message)
  | ArrayError.

Inductive outcome (A : Type) : Type :=
  | Return (a : A)
  | Raise (e : exn)
  | Timeout.
Arguments Return {A} a.
Arguments Raise {A} e.
Arguments Timeout {A}.

Global Instance outcome_ret : MRet outcome := λ A a, Return a.
Global Instance outcome_bind : MBind outcome := λ A B f m,
  match m with
  | Return a => f a
  | Raise e => Raise e
  | Timeout => Timeout
  end.

(** A [for] loop whose body may raise. *)
Fixpoint for_each {A B} (body : A → outcome B) (l : list A) : outcome (list B) :=
  match l with
  | [] => Return []
  | a :: l => b ← body a; bs ← for_each body l; Return (b :: bs)
  end.

Global Instance dist_le_dec (a b : dist) : Decision (dist_le a b).
Proof. unfold dist_le. apply _. Defined.

Global Instance dist_eq_dec : EqDecision dist.
Proof. solve_decision. Defined.

Global Instance dist_inhabited : Inhabited dist := populate Inf.

(** ** numpy helpers *)

(** [np.sum((p - test)**2)] for one row [p] *)
Definition sum_sq (p test : point) : Z :=
  foldr Z.add 0 (zip_with (λ x y, (x - y) ^ 2) p test).

Definition euclid (test p : point) : dist := Sqrt (sum_sq p test).

(** The order of two positions of [d] by their entries. *)
Definition key_le (d : list dist) : relation nat :=
  λ i j, dist_le (d !!! i) (d !!! j).

Global Instance key_le_dec d i j : Decision (key_le d i j).
Proof. unfold key_le. apply _. Defined.

(** [np.argsort(d)]: the positions of [d], smallest entry first. *)
Definition argsort (d : list dist) : list nat :=
  merge_sort (key_le d) (seq 0 (length d)).

(** [a[idx]] for an index array [idx] *)
Definition pick {A} `{Inhabited A} (a : list A) (idx : list nat) : list A :=
  (λ i : nat, a !!! i) <$> idx.

(** [d[mask[nbrs]] = np.inf] *)
Definition set_inf (mask : list bool) (nbrs : list nat) (d : list dist) : list dist :=
  zip_with (λ (n : nat) (x : dist), if (mask !!! n : bool) then Inf else x) nbrs d.

(** [b[e] = True] for one index [e] of an array of length [P]: a negative
    index counts from the end, an index outside [-P, P) raises. *)
Definition mark (P : nat) (b : list bool) (e : Z) : outcome (list bool) :=
  if bool_decide (- Z.of_nat P ≤ e < Z.of_nat P)
  then Return (<[Z.to_nat (e `mod` Z.of_nat P) := true]> b)
  else Raise ArrayError.

Fixpoint mark_all (P : nat) (b : list bool) (excluding : list Z) : outcome (list bool) :=
  match excluding with
  | [] => Return b
  | e :: es => b ← mark P b e; mark_all P b es
  end.

(** Lines 112-119: the mask of the excluded points. *)
Definition excluding_mask (P : nat) (excluding : option (list Z))
    : outcome (list bool) :=
  match excluding with
  | None => Return (replicate P false)
  | Some excluding => mark_all P (replicate P false) excluding
  end.

(** The rank of what [cKDTree.query(x, k)] returns for [x] of rank
    [S outer]: the shape of [x] without its last axis, then [k]; the last
    axis is dropped when [k = 1]. *)
Definition squeezed (outer k : nat) : nat :=
  if (k =? 1)%nat then outer else S outer.

Definition squeeze_point {A} `{Inhabited A} (k : nat) (row : list A)
    : nd A (squeezed 0 k) :=
  match (k =? 1)%nat as b return nd A (if b then 0 else 1)%nat with
  | true => row !!! 0%nat
  | false => row
  end.

Definition squeeze_batch {A} `{Inhabited A} (k : nat) (rows : list (list A))
    : nd A (squeezed 1 k) :=
  match (k =? 1)%nat as b return nd A (if b then 1 else 2)%nat with
  | true => (λ row, row !!! 0%nat) <$> rows
  | false => rows
  end.

(** [x[:,None]] *)
Definition new_axis {A} (x : nd A 1) : nd A 2 := (λ a, [a]) <$> x.

(** [if N == 1: x = x[:,None]] on a batched query result *)
Definition restore_axis {A} (N : nat) (x : nd A (squeezed 1 N)) : nd A 2 :=
  match (N =? 1)%nat as b return nd A (if b then 1 else 2)%nat → nd A 2 with
  | true => new_axis
  | false => λ m, m
  end x.

(** The result of a one-point query as an array that an index array can
    index; a scalar is not one. *)
Definition indexable {A} (k : nat) (x : nd A (squeezed 0 k)) : option (list A) :=
  match (k =? 1)%nat as b return nd A (if b then 0 else 1)%nat → option (list A) with
  | true => λ _, None
  | false => Some
  end x.

(** ** The module *)

Section Stencil.
(** [rbf.geometry.intersection_count], for one segment *)
Variable intersection_count : point → point → list point → list simplex → nat.
(** [cKDTree(population).query]: indices of the [k] nearest points *)
Variable knn : list point → point → nat → list nat.
(** [networkx.node_connectivity(networkx.Graph(edges))] *)
Variable node_connectivity : list (nat * nat) → Z.

Definition stencils_to_edges (stencils : list (list nat)) : list (nat * nat) :=
  let N := length stencils in
  let S := length (stencils !!! 0%nat) in
  let node1 := (λ i, replicate S i) <$> seq 0 N in
  let node2 := stencils in
  zip (concat node1) (concat node2).

Definition connectivity (stencils : list (list nat)) : Z :=
  let edges := stencils_to_edges stencils in
  node_connectivity edges.

(** [networkx.is_connected(networkx.Graph(edges))] *)
Variable graph_is_connected : list (nat * nat) → bool.

Definition is_connected (stencils : list (list nat)) : bool :=
  let edges := stencils_to_edges stencils in
  graph_is_connected edges.

Definition distance (test : point) (pnts : list point)
    (vert : option (list point)) (smp : option (list simplex)) : list dist :=
  let smp := default [] smp in
  let vert := default [] vert in
  (λ p,
     let dist := euclid test p in
     let cc := if nonzero dist then intersection_count test p vert smp else 0%nat in
     if (0 <? cc)%nat then Inf else dist) <$> pnts.

(** [T.query(q, k)] for one point and for the rows of a table *)
Definition query_row (population : list point) (q : point) (k : nat)
    : list dist * list nat :=
  let idx := knn population q k in
  ((λ i, euclid q (population !!! i)) <$> idx, idx).

Definition query_point (population : list point) (q : point) (k : nat)
    : nd dist (squeezed 0 k) * nd nat (squeezed 0 k) :=
  let r := query_row population q k in
  (squeeze_point k r.1, squeeze_point k r.2).

Definition query_batch (population : list point) (query : list point) (k : nat)
    : nd dist (squeezed 1 k) * nd nat (squeezed 1 k) :=
  let r := (λ q, query_row population q k) <$> query in
  (squeeze_batch k (r.*1), squeeze_batch k (r.*2)).

Section Row.
Variables (population : list point) (N : Z).
Variables (vert : option (list point)) (smp : option (list simplex)).
Variable excluding_bool : list bool.
Variable q : point.

Let P := length population.
Let n := Z.to_nat N.

(** lines 157-158 and 170-171: boundary-aware distance to the
    candidates, the excluded ones at infinity *)
Definition masked_distance (neighbors_i : list nat) : list dist :=
  set_inf excluding_bool neighbors_i
    (distance q (pick population neighbors_i) vert smp).

(** The entry of [masked_distance] for the one candidate [i]. *)
Definition candidate_distance (i : nat) : dist :=
  masked_distance [i] !!! 0%nat.

(** The [while] loop of lines 161-178; [neighbors_row] and [dist_row]
    are rows [neighbors[i]] and [dist[i]]. *)
Fixpoint widen (fuel : nat) (query_size : nat)
    (neighbors_row : list nat) (dist_row dist_i : list dist)
    : outcome (list nat * list dist) :=
  if existsb isinf dist_i then
    match fuel with
    | O => Timeout
    | S fuel =>
      let query_size := (query_size + n)%nat in
      let query_size := if (P <? query_size)%nat then P else query_size in
      let '(_, neighbors_i) := query_point population q query_size in
      match indexable query_size neighbors_i with
      | None => Raise ArrayError
      | Some neighbors_i =>
        let dist_i := masked_distance neighbors_i in
        let order := take n (argsort dist_i) in
        let neighbors_row := pick neighbors_i order in
        let dist_i := pick dist_i order in
        let dist_row := dist_i in
        if (query_size =? P)%nat && existsb isinf dist_i
        then Raise (StencilError (CrossingBoundary N q))
        else widen fuel query_size neighbors_row dist_row dist_i
      end
    end
  else Return (neighbors_row, dist_row).

(** One turn of the [for] loop of line 152. *)
Definition refine_row (neighbors_row : list nat) (dist_row : list dist)
    : outcome (list nat * list dist) :=
  let dist_i := masked_distance neighbors_row in
  let query_size := n in
  widen P query_size neighbors_row dist_row dist_i.
End Row.

(** Lines 139-147: the [N] nearest points of every query point, the
    boundary and the exclusions not yet looked at. *)
Definition first_guess (population query : list point) (N : Z)
    : list (list dist) * list (list nat) :=
  let Q := length query in
  if N =? 0 then (replicate Q [], replicate Q [])
  else
    let '(dist, neighbors) := query_batch population query (Z.to_nat N) in
    (restore_axis (Z.to_nat N) dist, restore_axis (Z.to_nat N) neighbors).

Definition nearest (query population : ndarray) (N : Z)
    (vert : option (list point)) (smp : option (list simplex))
    (excluding : option (list Z))
    : outcome (list (list nat) * list (list dist)) :=
  match shape0 population with
  | None => Raise ArrayError
  | Some P =>
    excluding_bool ← excluding_mask P excluding;
    if negb (ndim query =? 2)%nat then Raise (StencilError QueryNot2D) else
    if negb (ndim population =? 2)%nat then Raise (StencilError PopulationNot2D) else
    if Z.of_nat P <? N then Raise (StencilError (TooFewPoints N P)) else
    if N <? 0 then Raise (StencilError NegativeCount) else
    let query := rows_of query in
    let population := rows_of population in
    let '(dist, neighbors) := first_guess population query N in
    if bool_decide (vert = None) && bool_decide (excluding = None)
    then Return (neighbors, dist)
    else
      rows ← for_each
               (λ i, refine_row population N vert smp excluding_bool
                       (query !!! i) (neighbors !!! i) (dist !!! i))
               (seq 0 (length query));
      Return (rows.*1, rows.*2)
  end.

(** The [while] loop of lines 216-221. *)
Fixpoint grow (fuel : nat) (nodes : ndarray) (C : Z)
    (vert : option (list point)) (smp : option (list simplex))
    (N : Z) (s : list (list nat)) : outcome (list (list nat)) :=
  if connectivity s <? C then
    let N := N + 1 in
    match shape0 nodes with
    | None => Raise ArrayError
    | Some P =>
      if Z.of_nat P <? N then Raise (StencilError NoSuchConnectivity) else
      match fuel with
      | O => Timeout
      | S fuel =>
        '(s, dx) ← nearest nodes nodes N vert smp None;
        grow fuel nodes C vert smp N s
      end
    end
  else Return s.

Definition stencil_network (nodes : ndarray) (C N : option Z)
    (vert : option (list point)) (smp : option (list simplex))
    : outcome (list (list nat)) :=
  match C with
  | Some C =>
    let N := 2 in
    '(s, dx) ← nearest nodes nodes N vert smp None;
    grow (default 0%nat (shape0 nodes)) nodes C vert smp N s
  | None =>
    N ← match N with
        | Some N => Return N
        | None =>
          match shape0 nodes with
          | None => Raise ArrayError
          | Some P => Return (Z.min (Z.of_nat P) 10)
          end
        end;
    '(s, dx) ← nearest nodes nodes N vert smp None;
    Return s
  end.
End Stencil.

(** ** A reference spatial index *)

(** The laws of [cKDTree.query] for [k] up to the size of the population:
    [k] distinct indices of the population, nearest first, and no point
    left out is nearer than a point returned. *)
Record cKDTree_spec (knn : list point → point → nat → list nat) : Prop := {
  knn_length population q k :
    (k ≤ length population)%nat → length (knn population q k) = k;
  knn_NoDup population q k :
    (k ≤ length population)%nat → NoDup (knn population q k);
  knn_bound population q k i :
    (k ≤ length population)%nat →
    i ∈ knn population q k → (i < length population)%nat;
  knn_sorted population q k :
    (k ≤ length population)%nat →
    Sorted dist_le ((λ i, euclid q (population !!! i)) <$> knn population q k);
  knn_nearest population q k i j :
    (k ≤ length population)%nat →
    i ∈ knn population q k → (j < length population)%nat →
    j ∉ knn population q k →
    dist_le (euclid q (population !!! i)) (euclid q (population !!! j))
}.

(** Exhaustive search: sort all the indices by distance, keep [k]. *)
Definition brute_knn (population : list point) (q : point) (k : nat) : list nat :=
  take k (argsort ((λ p, euclid q p) <$> population)).

(** Neither oracle nor graph library: nothing crosses, every graph has
    connectivity 0. *)
Definition no_crossing : point → point → list point → list simplex → nat :=
  λ _ _ _ _, 0%nat.

(** A segment crosses when a vertex of the boundary has its first
    coordinate strictly between those of the end points. *)
Definition wall_crossing : point → point → list point → list simplex → nat :=
  λ a b vert _,
    length (filter (λ v, (a !!! 0%nat < v !!! 0%nat < b !!! 0%nat)
                         ∨ (b !!! 0%nat < v !!! 0%nat < a !!! 0%nat)) vert).

(** A stand-in for the graph library that computes: the number of edges. *)
Definition edge_count_connectivity : list (nat * nat) → Z :=
  λ edges, Z.of_nat (length edges).

(** Brute-force nearest neighbours, as the specification words it: the
    distances from [q] to every point of the population, in non-decreasing
    order, the first [N] of them. *)
Definition brute_force_distances (population : list point) (q : point) (N : nat)
    : list dist :=
  take N (merge_sort dist_le ((λ p, euclid q p) <$> population)).

(** The (row index, entry) pairs of a stencil table, row after row. *)
Definition row_entry_pairs (stencils : list (list nat)) : list (nat * nat) :=
  concat (imap (λ i row, (λ e, (i, e)) <$> row) stencils).

(** Four points on a line, for the examples. *)
Definition line4 : list point := [[0; 0]; [1; 0]; [3; 0]; [6; 0]].

(** The shape of a table: [Q] rows of [N] entries. *)
Definition has_shape {A} (Q N : nat) (a : list (list A)) : Prop :=
  length a = Q ∧ Forall (λ row, length row = N) a.

(** A kept row: [n] indices of the population, listed with their
    Euclidean distances from [q], nearest first. *)
Definition row_ok (population : list point) (q : point) (n : nat)
    (nb : list nat) (d : list dist) : Prop :=
  length nb = n
  ∧ d = (λ i : nat, euclid q (population !!! i)) <$> nb
  ∧ Sorted dist_le d
  ∧ Forall (λ i, (i < length population)%nat) nb.

(** Every stencil size from [lo] up to [hi], [hi] left out, gives a
    stencil whose connectivity is below the target [C]. *)
Definition falls_short
    (intersection_count : point → point → list point → list simplex → nat)
    (knn : list point → point → nat → list nat)
    (node_connectivity : list (nat * nat) → Z)
    (nodes : list point) (C : Z)
    (vert : option (list point)) (smp : option (list simplex))
    (lo hi : Z) : Prop :=
  ∀ j, lo ≤ j < hi →
    ∃ sj dxj,
      nearest intersection_count knn (Arr2 nodes) (Arr2 nodes) j vert smp None
      = Return (sj, dxj)
      ∧ connectivity node_connectivity sj < C.

(** [excluding] names index [i] of an array of length [P]. *)
Definition names_index (P : nat) (excluding : list Z) (i : nat) : Prop :=
  ∃ e, e ∈ excluding ∧ Z.to_nat (e `mod` Z.of_nat P) = i.

(** The points of the population that the query point [q] may take as
    neighbours, by their indices in increasing order: those whose
    boundary-aware distance, exclusions applied, is finite. *)
Definition reachable
    (intersection_count : point → point → list point → list simplex → nat)
    (population : list point)
    (vert : option (list point)) (smp : option (list simplex))
    (excluding_bool : list bool) (q : point) : list nat :=
  filter
    (λ j, candidate_distance intersection_count population vert smp
            excluding_bool q j ≠ Inf)
    (seq 0 (length population)).

(** No reachable point outside of [row] is nearer to [q] than a point of
    [row]. *)
Definition nearest_reachable
    (intersection_count : point → point → list point → list simplex → nat)
    (population : list point)
    (vert : option (list point)) (smp : option (list simplex))
    (excluding_bool : list bool) (q : point) (row : list nat) : Prop :=
  ∀ i j,
    i ∈ row →
    j ∈ reachable intersection_count population vert smp excluding_bool q →
    j ∉ row →
    dist_le (euclid q (population !!! i)) (euclid q (population !!! j)).

(** * Properties *)

(** ** The order on distances *)

Global Instance dist_le_refl : Reflexive dist_le.
Proof. intros [x|]; unfold dist_le; simpl; [lia|done]. Qed.

Global Instance dist_le_trans : Transitive dist_le.
Proof. intros [x|] [y|] [z|]; unfold dist_le; simpl; try done; lia. Qed.

Global Instance dist_le_total : Total dist_le.
Proof. intros [x|] [y|]; unfold dist_le; simpl; auto; lia. Qed.

Global Instance dist_le_antisymm : AntiSymm (=) dist_le.
Proof.
  intros [x|] [y|]; unfold dist_le; simpl; try done.
  intros ??. f_equal. lia.
Qed.

Lemma isinf_Inf d : isinf d = true ↔ d = Inf.
Proof. destruct d; simpl; naive_solver. Qed.

Lemma existsb_isinf_false l : existsb isinf l = false ↔ Forall (λ d, d ≠ Inf) l.
Proof.
  induction l as [|d l IH]; simpl; [by split; [constructor|]|].
  rewrite Forall_cons, <-IH. destruct d as [r|]; simpl.
  - split; [by intros ->|by intros [_ ->]].
  - split; [done|by intros [? _]].
Qed.

(** ** Sorting and index arrays *)

Section argsort.
Variable d : list dist.

Local Instance key_le_trans : Transitive (key_le d).
Proof. intros i j k. unfold key_le. apply transitivity. Qed.

Local Instance key_le_total : Total (key_le d).
Proof. intros i j. unfold key_le. apply total, _. Qed.

Lemma argsort_Permutation : argsort d ≡ₚ seq 0 (length d).
Proof. apply merge_sort_Permutation. Qed.

Lemma argsort_length : length (argsort d) = length d.
Proof. by rewrite argsort_Permutation, length_seq. Qed.

Lemma argsort_lt i : i ∈ argsort d → (i < length d)%nat.
Proof. rewrite argsort_Permutation, elem_of_seq. lia. Qed.

Lemma argsort_NoDup : NoDup (argsort d).
Proof. rewrite argsort_Permutation. apply NoDup_seq. Qed.

Lemma argsort_by_key : StronglySorted (key_le d) (argsort d).
Proof. apply (StronglySorted_merge_sort (key_le d)). Qed.

Lemma argsort_Sorted : StronglySorted dist_le (pick d (argsort d)).
Proof.
  unfold pick. eapply (StronglySorted_fmap _ (key_le d)); [done|].
  apply argsort_by_key.
Qed.
End argsort.

Lemma pick_seq {A} `{Inhabited A} (a : list A) :
  pick a (seq 0 (length a)) = a.
Proof.
  apply list_eq. intros i. unfold pick. rewrite list_lookup_fmap.
  destruct (decide (i < length a)%nat) as [Hi|Hi].
  - rewrite lookup_seq_lt by done. simpl.
    destruct (lookup_lt_is_Some_2 a i Hi) as [x Hx].
    by rewrite (list_lookup_total_correct _ _ _ Hx), Hx.
  - rewrite lookup_seq_ge, lookup_ge_None_2 by lia. done.
Qed.

Lemma pick_argsort_Permutation d : pick d (argsort d) ≡ₚ d.
Proof.
  rewrite <-(pick_seq d) at 3. unfold pick.
  apply fmap_Permutation, argsort_Permutation.
Qed.

Lemma pick_take {A} `{Inhabited A} (a : list A) idx k :
  pick a (take k idx) = take k (pick a idx).
Proof. unfold pick. by rewrite fmap_take. Qed.

Lemma pick_length {A} `{Inhabited A} (a : list A) idx :
  length (pick a idx) = length idx.
Proof. unfold pick. by rewrite length_fmap. Qed.

Lemma pick_fmap {A B} `{Inhabited A, Inhabited B} (f : A → B) (a : list A) idx :
  Forall (λ i, (i < length a)%nat) idx →
  pick (f <$> a) idx = f <$> pick a idx.
Proof.
  unfold pick. intros Hidx. rewrite <-list_fmap_compose.
  apply Forall_fmap_ext_1. eapply Forall_impl; [exact Hidx|].
  intros i Hi. simpl.
  destruct (lookup_lt_is_Some_2 a i Hi) as [x Hx].
  rewrite (list_lookup_total_correct _ _ _ Hx).
  apply list_lookup_total_correct. by rewrite list_lookup_fmap, Hx.
Qed.

Lemma pick_elem_of {A} `{Inhabited A} (a : list A) idx x :
  Forall (λ i, (i < length a)%nat) idx → x ∈ pick a idx → x ∈ a.
Proof.
  unfold pick. intros Hidx (i & -> & Hi)%list_elem_of_fmap.
  rewrite Forall_forall in Hidx. apply list_elem_of_lookup_total_2. auto.
Qed.

Lemma StronglySorted_take {A} (R : relation A) k l :
  StronglySorted R l → StronglySorted R (take k l).
Proof.
  intros Hl. rewrite <-(take_drop k l) in Hl.
  by apply StronglySorted_app_1_l in Hl.
Qed.

Lemma sorted_prefix_unique l1 l2 l :
  StronglySorted dist_le l1 →
  (∀ x y, x ∈ l1 → y ∈ l2 → dist_le x y) →
  l1 ++ l2 ≡ₚ l →
  l1 = take (length l1) (merge_sort dist_le l).
Proof.
  intros Hl1 Hle Hperm.
  assert (l1 ++ merge_sort dist_le l2 = merge_sort dist_le l) as <-.
  { apply (StronglySorted_unique dist_le).
    - apply StronglySorted_app_2; [|done|apply StronglySorted_merge_sort; apply _].
      intros x y Hx Hy. rewrite merge_sort_Permutation in Hy. auto.
    - apply StronglySorted_merge_sort; apply _.
    - by rewrite !merge_sort_Permutation. }
  by rewrite take_app_length.
Qed.

(** ** The reference index obeys the laws of the spatial index *)

Section brute.
Variables (population : list point) (q : point) (k : nat).

Local Abbreviation D := ((λ p, euclid q p) <$> population).

Local Lemma D_length : length D = length population.
Proof. unfold D. by rewrite length_fmap. Qed.

Local Lemma D_lookup i :
  (i < length population)%nat → D !!! i = euclid q (population !!! i).
Proof. intros Hi. unfold D. by apply (list_lookup_total_fmap (euclid q)). Qed.

Lemma brute_knn_length :
  (k ≤ length population)%nat → length (brute_knn population q k) = k.
Proof.
  intros Hk. unfold brute_knn. fold D.
  rewrite length_take_le; [done|]. by rewrite argsort_length, D_length.
Qed.

Lemma brute_knn_NoDup : NoDup (brute_knn population q k).
Proof.
  unfold brute_knn. eapply sublist_NoDup; [apply argsort_NoDup|].
  apply sublist_take.
Qed.

Lemma brute_knn_bound i :
  i ∈ brute_knn population q k → (i < length population)%nat.
Proof.
  unfold brute_knn. fold D. intros Hi%subseteq_take%argsort_lt.
  by rewrite D_length in Hi.
Qed.

Lemma brute_knn_distances :
  (λ i, euclid q (population !!! i)) <$> brute_knn population q k
  = take k (pick D (argsort D)).
Proof.
  rewrite <-pick_take. unfold pick. apply Forall_fmap_ext_1.
  apply Forall_forall. intros i Hi%brute_knn_bound. by rewrite D_lookup.
Qed.

Lemma brute_knn_sorted :
  Sorted dist_le ((λ i, euclid q (population !!! i)) <$> brute_knn population q k).
Proof.
  rewrite brute_knn_distances.
  apply StronglySorted_Sorted, StronglySorted_take, argsort_Sorted.
Qed.

Lemma brute_knn_nearest i j :
  i ∈ brute_knn population q k → (j < length population)%nat →
  j ∉ brute_knn population q k →
  dist_le (euclid q (population !!! i)) (euclid q (population !!! j)).
Proof.
  intros Hi Hj Hnj. pose proof (brute_knn_bound _ Hi) as Hib.
  rewrite <-!D_lookup by done.
  pose proof (argsort_by_key D) as Hs.
  rewrite <-(take_drop k (argsort D)) in Hs.
  apply (StronglySorted_app_1_elem_of _ _ _ _ _ Hs); [exact Hi|].
  assert (j ∈ argsort D) as Hin.
  { rewrite argsort_Permutation, elem_of_seq, D_length. lia. }
  rewrite <-(take_drop k (argsort D)), elem_of_app in Hin.
  by destruct Hin.
Qed.
End brute.

Lemma brute_knn_spec : cKDTree_spec brute_knn.
Proof.
  split; intros.
  - by apply brute_knn_length.
  - apply brute_knn_NoDup.
  - by eapply brute_knn_bound.
  - apply brute_knn_sorted.
  - by eapply brute_knn_nearest.
Qed.

(** ** Loops that may raise *)

Lemma for_each_Return {A B} (body : A → outcome B) l bs :
  for_each body l = Return bs ↔ Forall2 (λ a b, body a = Return b) l bs.
Proof.
  split.
  - revert bs. induction l as [|a l IH]; intros bs Hbs; simpl in Hbs.
    + injection Hbs as <-. constructor.
    + destruct (body a) as [b| |] eqn:Hb; [|done..].
      destruct (for_each body l) as [bs'| |]; [|done..].
      injection Hbs as <-. constructor; auto.
  - induction 1 as [|a b l bs Hb _ IH]; simpl; [done|].
    by rewrite Hb, IH.
Qed.

(** Case analysis on the first action of the [bind] in [H]. *)
Tactic Notation "case_bind" hyp(H) simple_intropattern(pat) ident(E) :=
  match type of H with
  | mbind _ ?m = _ => destruct m as pat eqn:E
  end.

Lemma for_each_Raise {A B} (body : A → outcome B) l e :
  for_each body l = Raise e → ∃ a, a ∈ l ∧ body a = Raise e.
Proof.
  induction l as [|a l IH]; simpl; [done|]. intros Hraise.
  destruct (body a) as [b|e'|] eqn:Hb; simpl in Hraise; [|..|done].
  - destruct (for_each body l) as [bs|e'|]; simpl in Hraise; [done| |done].
    destruct (IH Hraise) as (a' & ? & ?). exists a'. split; [by right|done].
  - injection Hraise as <-. exists a. split; [by left|done].
Qed.

Lemma for_each_no_Timeout {A B} (body : A → outcome B) l :
  Forall (λ a, body a ≠ Timeout) l → for_each body l ≠ Timeout.
Proof.
  induction 1 as [|a l Ha _ IH]; simpl; [done|].
  destruct (body a); simpl; [|done..].
  destruct (for_each body l); simpl; done.
Qed.

(** ** One row of the slow path *)

Section row.
Variable intersection_count : point → point → list point → list simplex → nat.
Variable knn : list point → point → nat → list nat.
Variables (population : list point) (N : Z).
Variables (vert : option (list point)) (smp : option (list simplex)).
Variable excluding_bool : list bool.
Variable q : point.

Local Abbreviation P := (length population).
Local Abbreviation n := (Z.to_nat N).
Local Abbreviation masked := (masked_distance intersection_count population vert smp excluding_bool q).
Local Abbreviation candidate := (candidate_distance intersection_count population vert smp excluding_bool q).
Local Abbreviation straight := (λ i : nat, euclid q (population !!! i)).
Local Abbreviation loop := (widen intersection_count knn population N vert smp excluding_bool q).

Lemma masked_distance_fmap nbrs : masked nbrs = candidate <$> nbrs.
Proof.
  unfold candidate_distance, masked_distance, set_inf, distance, pick.
  induction nbrs as [|i nbrs IH]; [done|]. csimpl. f_equal. exact IH.
Qed.

Lemma candidate_distance_unfold i :
  candidate i =
    if (excluding_bool !!! i : bool) then Inf
    else if nonzero (straight i)
         then if (0 <? intersection_count q (population !!! i)
                         (default [] vert) (default [] smp))%nat
              then Inf else straight i
         else straight i.
Proof.
  change (candidate i) with
    (if (excluding_bool !!! i : bool) then Inf
     else if (0 <? (if nonzero (straight i)
                    then intersection_count q (population !!! i)
                           (default [] vert) (default [] smp)
                    else 0))%nat
          then Inf else straight i).
  by destruct (excluding_bool !!! i), (nonzero (euclid q (population !!! i))).
Qed.

(** A candidate at finite distance is not excluded, is at its Euclidean
    distance, and is not behind the boundary unless it coincides with
    the query point. *)
Lemma candidate_finite i :
  candidate i ≠ Inf →
  excluding_bool !!! i = false
  ∧ candidate i = straight i
  ∧ (straight i ≠ Sqrt 0 →
     intersection_count q (population !!! i) (default [] vert) (default [] smp) = 0%nat).
Proof.
  rewrite candidate_distance_unfold.
  destruct (excluding_bool !!! i); [done|].
  destruct (nonzero (euclid q (population !!! i))) eqn:Hnz.
  - destruct (intersection_count _ _ _ _) as [|c]; simpl; done.
  - intros _. split_and!; [done..|].
    unfold euclid, nonzero in *. intros Hne. exfalso. apply Hne. f_equal.
    apply negb_false_iff in Hnz. lia.
Qed.

Lemma masked_finite_straight nb :
  Forall (λ x, x ≠ Inf) (masked nb) → masked nb = straight <$> nb.
Proof.
  rewrite masked_distance_fmap. intros Hfin.
  apply Forall_fmap_ext_1. rewrite Forall_fmap in Hfin.
  eapply Forall_impl; [exact Hfin|]. intros i Hi. simpl in *.
  by apply candidate_finite.
Qed.

Lemma indexable_squeeze_point {A} `{Inhabited A} k (row : list A) :
  indexable k (squeeze_point k row) = if (k =? 1)%nat then None else Some row.
Proof. unfold indexable, squeeze_point. by destruct (k =? 1)%nat. Qed.

Local Abbreviation next_size qs :=
  (if (P <? qs + n)%nat then P else (qs + n)%nat).

(** One turn of the loop, the one-point query spelled out. *)
Lemma widen_step fuel qs nb d di :
  loop (S fuel) qs nb d di =
    if existsb isinf di then
      if (next_size qs =? 1)%nat then Raise ArrayError else
      let neighbors_i := knn population q (next_size qs) in
      let order := take n (argsort (masked neighbors_i)) in
      let kept := pick (masked neighbors_i) order in
      if (next_size qs =? P)%nat && existsb isinf kept
      then Raise (StencilError (CrossingBoundary N q))
      else loop fuel (next_size qs) (pick neighbors_i order) kept kept
    else Return (nb, d).
Proof.
  simpl. destruct (existsb isinf di); [|done].
  unfold query_point, query_row. simpl.
  rewrite indexable_squeeze_point.
  by destruct (next_size qs =? 1)%nat.
Qed.

Lemma widen_finite fuel qs nb d di :
  existsb isinf di = false → loop fuel qs nb d di = Return (nb, d).
Proof. intros Hfin. destruct fuel; simpl; by rewrite Hfin. Qed.

Lemma finite_row nb di :
  di = masked nb → existsb isinf di = false →
  Forall (λ i, candidate i ≠ Inf) nb.
Proof.
  intros -> Hfin%existsb_isinf_false.
  by rewrite masked_distance_fmap, Forall_fmap in Hfin.
Qed.

(** The fuel of [refine_row] is enough: every turn but the last one
    enlarges the query, and the query never outgrows the population. *)
Lemma widen_no_Timeout fuel : ∀ qs nb d di,
  existsb isinf di = false ∨ ((1 ≤ n)%nat ∧ (P - qs < fuel)%nat) →
  loop fuel qs nb d di ≠ Timeout.
Proof.
  induction fuel as [|fuel IH]; intros qs nb d di Hfuel.
  - destruct Hfuel as [Hfin|[_ ?]]; [|lia]. by rewrite widen_finite.
  - rewrite widen_step. destruct (existsb isinf di) eqn:Hinf; [|done].
    destruct Hfuel as [?|[Hn Hfuel]]; [done|].
    destruct (next_size qs =? 1)%nat; [done|]. cbv zeta.
    destruct (_ && _) eqn:Hstop; [done|].
    apply IH. apply andb_false_iff in Hstop as [Hsize%Nat.eqb_neq|?]; [|by left].
    right. split; [done|]. destruct (Nat.ltb_spec P (qs + n)); lia.
Qed.

Lemma refine_row_no_Timeout nb d :
  (n ≤ P)%nat → (n = 0%nat → nb = []) →
  refine_row intersection_count knn population N vert smp excluding_bool q nb d
  ≠ Timeout.
Proof.
  intros Hn Hnil. unfold refine_row. apply widen_no_Timeout.
  destruct (decide (n = 0%nat)) as [Hz|Hz]; [|right; lia].
  left. by rewrite (Hnil Hz).
Qed.

(** The loop raises two errors only; with two points or more in the
    population it raises the module's own error only, and only after a
    query of the whole population that keeps an infinite distance. *)
Lemma widen_Raise fuel : ∀ qs nb d di e,
  loop fuel qs nb d di = Raise e →
  e = ArrayError ∨ e = StencilError (CrossingBoundary N q).
Proof.
  induction fuel as [|fuel IH]; intros qs nb d di e Hraise.
  - simpl in Hraise. by destruct (existsb isinf di).
  - rewrite widen_step in Hraise. destruct (existsb isinf di); [|done].
    destruct (next_size qs =? 1)%nat; [injection Hraise as <-; by left|].
    cbv zeta in Hraise.
    destruct (_ && _); [injection Hraise as <-; by right|by eapply IH].
Qed.

Lemma widen_Raise_terminal fuel : ∀ qs nb d di e,
  (2 ≤ P)%nat → (1 ≤ n)%nat → (1 ≤ qs)%nat →
  loop fuel qs nb d di = Raise e →
  e = StencilError (CrossingBoundary N q)
  ∧ existsb isinf
      (pick (masked (knn population q P))
         (take n (argsort (masked (knn population q P))))) = true.
Proof.
  induction fuel as [|fuel IH]; intros qs nb d di e HP Hn Hqs Hraise.
  - simpl in Hraise. by destruct (existsb isinf di).
  - rewrite widen_step in Hraise. destruct (existsb isinf di); [|done].
    assert (2 ≤ next_size qs)%nat as Hnext
      by (destruct (Nat.ltb_spec P (qs + n)); lia).
    destruct (Nat.eqb_spec (next_size qs) 1); [lia|]. cbv zeta in Hraise.
    destruct (Nat.eqb_spec (next_size qs) P) as [Hfull|_]; simpl in Hraise.
    + rewrite Hfull in Hraise.
      destruct (existsb isinf _) eqn:Hinf;
        [by injection Hraise as <-|eapply IH; [..|exact Hraise]; lia].
    + eapply IH; [..|exact Hraise]; lia.
Qed.

Section laws.
Hypothesis knn_spec : cKDTree_spec knn.
Hypothesis Hn : (n ≤ P)%nat.

Lemma next_size_bounds qs : (n ≤ next_size qs ≤ P)%nat.
Proof. destruct (Nat.ltb_spec P (qs + n)); lia. Qed.

(** The row kept by one turn of the loop. *)
Lemma kept_row k :
  (n ≤ k ≤ P)%nat →
  let neighbors_i := knn population q k in
  let order := take n (argsort (masked neighbors_i)) in
  let kept := pick (masked neighbors_i) order in
  let nb := pick neighbors_i order in
  kept = masked nb ∧ length nb = n ∧ Sorted dist_le kept
  ∧ Forall (λ i, (i < P)%nat) nb.
Proof.
  intros Hk neighbors_i order kept nb.
  assert (length neighbors_i = k) as Hlen
    by (apply knn_length; [done|lia]).
  assert (Forall (λ i, (i < length neighbors_i)%nat) order) as Horder.
  { apply Forall_forall. intros i Hi%subseteq_take%argsort_lt.
    by rewrite masked_distance_fmap, length_fmap in Hi. }
  split_and!.
  - unfold kept, nb. rewrite !masked_distance_fmap. by apply pick_fmap.
  - unfold nb, order. rewrite pick_length, length_take, argsort_length.
    rewrite masked_distance_fmap, length_fmap. lia.
  - unfold kept, order. rewrite pick_take.
    apply StronglySorted_Sorted, StronglySorted_take, argsort_Sorted.
  - apply Forall_forall. intros i Hi%pick_elem_of; [|done].
    eapply knn_bound; [done| |exact Hi]. lia.
Qed.

Lemma widen_Return fuel : ∀ qs nb d di nb' d',
  di = masked nb →
  (existsb isinf di = false → row_ok population q n nb d) →
  loop fuel qs nb d di = Return (nb', d') →
  row_ok population q n nb' d' ∧ Forall (λ i, candidate i ≠ Inf) nb'.
Proof.
  induction fuel as [|fuel IH]; intros qs nb d di nb' d' Hdi Hok Hret.
  - simpl in Hret. destruct (existsb isinf di) eqn:Hinf; [done|].
    injection Hret as <- <-. eauto using finite_row.
  - rewrite widen_step in Hret.
    destruct (existsb isinf di) eqn:Hinf;
      [|injection Hret as <- <-; eauto using finite_row].
    destruct (next_size qs =? 1)%nat; [done|]. cbv zeta in Hret.
    destruct (_ && _); [done|].
    destruct (kept_row (next_size qs) (next_size_bounds qs))
      as (Hkept & Hlen & Hsorted & Hbound).
    eapply IH; [exact Hkept| |exact Hret].
    intros Hfin%existsb_isinf_false. split_and!; [done| |done..].
    rewrite Hkept in Hfin |- *. by apply masked_finite_straight.
Qed.

(** The first guess of the index is a kept row already. *)
Lemma knn_row_ok :
  row_ok population q n (knn population q n) (straight <$> knn population q n).
Proof.
  split_and!; [by apply knn_length|done|by apply knn_sorted|].
  apply Forall_forall. intros i Hi. by eapply knn_bound.
Qed.

Lemma refine_row_Return nb' d' :
  refine_row intersection_count knn population N vert smp excluding_bool q
    (knn population q n) (straight <$> knn population q n) = Return (nb', d') →
  row_ok population q n nb' d' ∧ Forall (λ i, candidate i ≠ Inf) nb'.
Proof.
  unfold refine_row. apply widen_Return; [done|]. intros _. apply knn_row_ok.
Qed.

(** With two points or more in the population the loop has two ways out:
    a row whose kept candidates are all at finite distance, or the
    module's error after a query of the whole population that still keeps
    an infinite distance. *)
Lemma refine_row_outcome :
  (2 ≤ P)%nat →
  (∃ nb' d',
     refine_row intersection_count knn population N vert smp excluding_bool q
       (knn population q n) (straight <$> knn population q n) = Return (nb', d')
     ∧ row_ok population q n nb' d'
     ∧ Forall (λ i, candidate i ≠ Inf) nb')
  ∨ (refine_row intersection_count knn population N vert smp excluding_bool q
       (knn population q n) (straight <$> knn population q n)
     = Raise (StencilError (CrossingBoundary N q))
     ∧ existsb isinf
         (pick (masked (knn population q P))
            (take n (argsort (masked (knn population q P))))) = true).
Proof.
  intros HP.
  destruct (refine_row _ _ _ _ _ _ _ _ _ _) as [[nb' d']|e|] eqn:Hrow.
  - left. exists nb', d'. split; [done|]. by apply refine_row_Return.
  - right. unfold refine_row in Hrow.
    destruct (decide (n = 0%nat)) as [Hz|Hz].
    { rewrite widen_finite in Hrow; [done|].
      pose proof (knn_length _ knn_spec population q n Hn) as Hlen.
      rewrite Hz in Hlen at 2. by rewrite (nil_length_inv _ Hlen). }
    by apply widen_Raise_terminal in Hrow as [-> ?]; [|lia..].
  - exfalso. revert Hrow. apply refine_row_no_Timeout; [done|].
    intros Hz. apply nil_length_inv. by rewrite knn_length.
Qed.
End laws.
End row.

(** ** [nearest] *)

Lemma fmap_const_replicate {A B} (f : A → B) b l :
  (∀ a, f a = b) → f <$> l = replicate (length l) b.
Proof. intros Hf. induction l; csimpl; [done|]. by rewrite Hf, IHl. Qed.

Lemma singleton_lookup_total {A} `{Inhabited A} (row : list A) :
  length row = 1%nat → [row !!! 0%nat] = row.
Proof. by destruct row as [|a [|b row]]. Qed.

Lemma mark_all_Return P : ∀ excluding b b',
  mark_all P b excluding = Return b' →
  length b' = length b
  ∧ (∀ i, b !! i = Some true → b' !! i = Some true)
  ∧ (length b = P → ∀ i, names_index P excluding i → b' !! i = Some true).
Proof.
  induction excluding as [|e es IH]; intros b b' Hret; simpl in Hret.
  - injection Hret as <-. split_and!; [done..|].
    intros _ i (e & He & _). by apply elem_of_nil in He.
  - unfold mark in Hret. case_bool_decide as He; [|done]. simpl in Hret.
    apply IH in Hret as (Hlen & Hkeep & Hall).
    rewrite length_insert in Hlen, Hall. split_and!; [done| |].
    + intros i Hi. apply Hkeep.
      destruct (decide (i = Z.to_nat (e `mod` Z.of_nat P))) as [->|Hne].
      * apply list_lookup_insert_eq. by eapply lookup_lt_Some.
      * by rewrite list_lookup_insert_ne.
    + intros HP i (e' & [->|He']%elem_of_cons & <-).
      * apply Hkeep, list_lookup_insert_eq. rewrite HP.
        pose proof (Z.mod_pos_bound e (Z.of_nat P)). lia.
      * apply Hall; [done|]. by exists e'.
Qed.

Lemma excluding_mask_Some P excluding eb i :
  excluding_mask P (Some excluding) = Return eb →
  names_index P excluding i → eb !!! i = true.
Proof.
  intros (_ & _ & Hall)%mark_all_Return Hi.
  apply list_lookup_total_correct, Hall; [|done]. apply length_replicate.
Qed.

Lemma excluding_mask_valid P excluding :
  Forall (λ e, - Z.of_nat P ≤ e < Z.of_nat P) excluding →
  ∃ eb, excluding_mask P (Some excluding) = Return eb.
Proof.
  intros Hvalid. unfold excluding_mask. generalize (replicate P false).
  induction Hvalid as [|e es He _ IH]; intros b; simpl; [by eexists|].
  unfold mark. rewrite bool_decide_eq_true_2 by done. simpl. apply IH.
Qed.

Section nearest_facts.
Variable intersection_count : point → point → list point → list simplex → nat.
Variable knn : list point → point → nat → list nat.

Local Abbreviation nearest' := (nearest intersection_count knn).
Local Abbreviation slow_rows population query N vert smp eb :=
  (for_each
     (λ i : nat,
        refine_row intersection_count knn population N vert smp eb
          (query%list !!! i)
          ((first_guess knn population query N).2 !!! i)
          ((first_guess knn population query N).1 !!! i))
     (seq 0 (length query))).

(** [nearest] on two tables, once the arguments have passed the checks
    of lines 112-135. *)
Lemma nearest_Arr2 query population N vert smp excluding eb :
  excluding_mask (length population) excluding = Return eb →
  0 ≤ N ≤ Z.of_nat (length population) →
  nearest' (Arr2 query) (Arr2 population) N vert smp excluding =
    if bool_decide (vert = None) && bool_decide (excluding = None)
    then Return ((first_guess knn population query N).2,
                 (first_guess knn population query N).1)
    else rows ← slow_rows population query N vert smp eb;
         Return (rows.*1, rows.*2).
Proof.
  intros Hmask HN. unfold nearest. simpl. rewrite Hmask. simpl.
  rewrite (proj2 (Z.ltb_ge _ _)), (proj2 (Z.ltb_ge _ _)) by lia.
  by destruct (first_guess knn population query N).
Qed.

(** A call that returns has passed all the checks. *)
Lemma nearest_Return_inv query population N vert smp excluding r :
  nearest' query population N vert smp excluding = Return r →
  ∃ qs pop eb,
    query = Arr2 qs ∧ population = Arr2 pop
    ∧ excluding_mask (length pop) excluding = Return eb
    ∧ 0 ≤ N ≤ Z.of_nat (length pop).
Proof.
  unfold nearest. intros Hret.
  destruct (shape0 population) as [P|] eqn:HP; [|done].
  destruct (excluding_mask P excluding) as [eb| |] eqn:Hmask; [|done..].
  simpl in Hret.
  destruct query as [?|?|qs|?]; try done.
  destruct population as [?|?|pop|?]; try done.
  simpl in *. injection HP as <-.
  destruct (Z.ltb_spec (Z.of_nat (length pop)) N); [done|].
  destruct (Z.ltb_spec N 0); [done|].
  exists qs, pop, eb. split_and!; [done..|lia|lia].
Qed.

Lemma first_guess_zero population query :
  first_guess knn population query 0
  = (replicate (length query) [], replicate (length query) []).
Proof. done. Qed.

Lemma first_guess_length population query N :
  length (first_guess knn population query N).1 = length query
  ∧ length (first_guess knn population query N).2 = length query.
Proof.
  unfold first_guess. destruct (N =? 0); simpl.
  { split; apply length_replicate. }
  unfold query_batch, restore_axis, squeeze_batch, new_axis.
  destruct (Z.to_nat N =? 1)%nat; simpl; split; by rewrite !length_fmap.
Qed.

Lemma nearest_no_Timeout query population N vert smp excluding :
  nearest' query population N vert smp excluding ≠ Timeout.
Proof.
  destruct (nearest' query population N vert smp excluding) as [r|e|] eqn:Hret;
    [done..|exfalso].
  unfold nearest in Hret.
  destruct (shape0 population) as [P|] eqn:HP; [|done].
  destruct (excluding_mask P excluding) as [eb| |] eqn:Hmask; simpl in Hret;
    [|done|].
  2:{ clear Hret. unfold excluding_mask in Hmask.
      destruct excluding as [ex|]; [|done].
      revert Hmask. generalize (replicate P false).
      induction ex as [|e es IH]; intros b; simpl; [done|].
      unfold mark. case_bool_decide; simpl; [apply IH|done]. }
  destruct query as [?|?|qs|?]; try done.
  destruct population as [?|?|pop|?]; try done.
  simpl in *. injection HP as <-.
  destruct (Z.ltb_spec (Z.of_nat (length pop)) N); [done|].
  destruct (Z.ltb_spec N 0); [done|].
  destruct (first_guess knn pop qs N) as [ds nbs] eqn:Hguess.
  destruct (_ && _); [done|].
  case_bind Hret [rows| |] Hrows; [done..|].
  revert Hrows. apply for_each_no_Timeout, Forall_forall.
  intros i Hi%elem_of_seq. apply refine_row_no_Timeout; [lia|].
  intros HN. assert (N = 0) as -> by lia.
  rewrite first_guess_zero in Hguess. injection Hguess as <- <-.
  apply list_lookup_total_correct, lookup_replicate_2. lia.
Qed.

Section laws.
Hypothesis knn_spec : cKDTree_spec knn.

(** With a lawful index the squeezed axis of [N = 1] is restored and
    the empty rows of [N = 0] are what a query would give. *)
Lemma first_guess_spec population query N :
  0 ≤ N ≤ Z.of_nat (length population) →
  first_guess knn population query N =
    ((λ q, (λ i : nat, euclid q (population !!! i))
             <$> knn population q (Z.to_nat N)) <$> query,
     (λ q, knn population q (Z.to_nat N)) <$> query).
Proof.
  intros HN.
  assert (∀ q, length (knn population q (Z.to_nat N)) = Z.to_nat N) as Hlen.
  { intros q. apply knn_length; [done|lia]. }
  unfold first_guess. destruct (Z.eqb_spec N 0) as [->|HN0].
  - f_equal; symmetry; apply fmap_const_replicate; intros q;
      by rewrite (nil_length_inv _ (Hlen q)).
  - unfold query_batch, restore_axis, squeeze_batch, new_axis, query_row.
    destruct (Nat.eqb_spec (Z.to_nat N) 1) as [H1|H1].
    + f_equal; rewrite <-!list_fmap_compose; apply list_fmap_ext;
        intros i q _; simpl; apply singleton_lookup_total; rewrite ?length_fmap, Hlen; done.
    + by rewrite <-!list_fmap_compose.
Qed.

(** Every row that [nearest] returns is a kept row, and on the slow
    path every neighbour in it is at finite boundary-aware distance. *)
Lemma nearest_rows query population N vert smp excluding eb nbs ds :
  nearest' (Arr2 query) (Arr2 population) N vert smp excluding = Return (nbs, ds) →
  excluding_mask (length population) excluding = Return eb →
  length nbs = length query ∧ length ds = length query
  ∧ ∀ i q, query !! i = Some q →
      row_ok population q (Z.to_nat N) (nbs !!! i) (ds !!! i)
      ∧ (vert ≠ None ∨ excluding ≠ None →
         Forall (λ j, candidate_distance intersection_count population
                        vert smp eb q j ≠ Inf) (nbs !!! i)).
Proof.
  intros Hret Hmask.
  destruct (nearest_Return_inv _ _ _ _ _ _ _ Hret)
    as (? & ? & ? & [= <-] & [= <-] & _ & HN).
  rewrite (nearest_Arr2 _ _ _ _ _ _ _ Hmask HN) in Hret.
  rewrite first_guess_spec in Hret by done. simpl in Hret.
  destruct (bool_decide (vert = None) && bool_decide (excluding = None))
    eqn:Hfast.
  - injection Hret as <- <-. rewrite !length_fmap. split_and!; [done..|].
    intros i q Hq. rewrite !list_lookup_total_alt, !list_lookup_fmap, Hq.
    simpl. split; [apply knn_row_ok; [done|lia]|].
    apply andb_true_iff in Hfast as [?%bool_decide_eq_true ?%bool_decide_eq_true].
    by intros [?|?].
  - case_bind Hret [rows| |] Hrows; [|done..].
    injection Hret as <- <-. apply for_each_Return in Hrows.
    pose proof (Forall2_length _ _ _ Hrows) as Hlen.
    rewrite length_seq in Hlen. rewrite !length_fmap.
    split_and!; [done..|]. intros i q Hq.
    pose proof (lookup_lt_Some _ _ _ Hq) as Hi.
    destruct (Forall2_lookup_l _ _ _ i i Hrows) as ([nb d] & Hr & Hrow).
    { by apply lookup_seq_lt. }
    rewrite !list_lookup_total_alt, !list_lookup_fmap, Hq in Hrow.
    simpl in Hrow. rewrite !list_lookup_total_alt, !list_lookup_fmap, Hr.
    simpl. apply refine_row_Return in Hrow as [??]; [|done|lia].
    split; [done|]. by intros _.
Qed.
End laws.
End nearest_facts.

(** ** The fast path *)

(** C10. With [vert = None] and [excluding = None] the result of [nearest]
    is the same for any two values of [smp], and for any two intersection
    oracles: the test of line 149 reads [vert] and [excluding] only, so a
    boundary given by its simplices alone is ignored. *)
Theorem nearest_ignores_smp
    (oracle1 oracle2 : point → point → list point → list simplex → nat)
    (knn : list point → point → nat → list nat)
    (query population : ndarray) (N : Z) (smp1 smp2 : option (list simplex)) :
  nearest oracle1 knn query population N None smp1 None
  = nearest oracle2 knn query population N None smp2 None.
Proof.
  unfold nearest. destruct (shape0 population) as [P|]; [|done]. simpl.
  repeat match goal with |- (if ?b then _ else _) = _ => destruct b; [done|] end.
  by destruct (first_guess knn (rows_of population) (rows_of query) N).
Qed.

(** ** No neighbours requested *)

(** C8. For tables [query] and [population], with or without a boundary,
    with or without an exclusion set whose entries index the population,
    [nearest] with [N = 0] returns two arrays of shape (Q, 0).  The index
    is any function at all, lawful or not: the result does not come from
    a query. *)
Theorem nearest_zero
    (oracle : point → point → list point → list simplex → nat)
    (knn : list point → point → nat → list nat)
    (query population : list point)
    (vert : option (list point)) (smp : option (list simplex))
    (excluding : option (list Z)) :
  (∀ ex, excluding = Some ex →
     Forall (λ e, - Z.of_nat (length population) ≤ e
                  < Z.of_nat (length population)) ex) →
  ∃ nbs ds,
    nearest oracle knn (Arr2 query) (Arr2 population) 0 vert smp excluding
    = Return (nbs, ds)
    ∧ nbs = replicate (length query) [] ∧ ds = replicate (length query) []
    ∧ has_shape (length query) 0 nbs ∧ has_shape (length query) 0 ds.
Proof.
  intros Hex.
  assert (∃ eb, excluding_mask (length population) excluding = Return eb)
    as [eb Hmask].
  { destruct excluding as [ex|]; [|by eexists].
    by apply excluding_mask_valid, Hex. }
  exists (replicate (length query) []), (replicate (length query) []).
  assert (∀ A, has_shape (length query) 0 (replicate (length query) (@nil A)))
    as Hshape.
  { intros A. split; [apply length_replicate|by apply Forall_replicate]. }
  split; [|by split_and!].
  rewrite (nearest_Arr2 _ _ _ _ _ _ _ _ eb) by (done || lia).
  rewrite first_guess_zero. simpl.
  destruct (_ && _); [done|].
  match goal with |- mbind _ ?m = _ =>
    assert (m = Return (replicate (length query) ([], []))) as -> end.
  { apply for_each_Return, Forall2_same_length_lookup_2.
    { by rewrite length_seq, length_replicate. }
    intros i j r [-> Hi]%lookup_seq [-> _]%lookup_replicate.
    simpl.
    rewrite (list_lookup_total_correct _ _ _ (lookup_replicate_2 _ (@nil nat) _ Hi)).
    rewrite (list_lookup_total_correct _ _ _ (lookup_replicate_2 _ (@nil dist) _ Hi)).
    by apply widen_finite. }
  simpl. by rewrite !fmap_replicate.
Qed.

(** ** Rows of a returned table *)

(** What a normal return of [nearest] says about row [i] of its tables. *)
Lemma nearest_Return_rows
    (oracle : point → point → list point → list simplex → nat)
    (knn : list point → point → nat → list nat)
    query population N vert smp excluding nbs ds :
  cKDTree_spec knn →
  nearest oracle knn query population N vert smp excluding = Return (nbs, ds) →
  ∃ qs pop eb,
    query = Arr2 qs ∧ population = Arr2 pop
    ∧ excluding_mask (length pop) excluding = Return eb
    ∧ 0 ≤ N ≤ Z.of_nat (length pop)
    ∧ length nbs = length qs ∧ length ds = length qs
    ∧ ∀ i, (i < length qs)%nat →
        ∃ q row drow,
          qs !! i = Some q ∧ nbs !! i = Some row ∧ ds !! i = Some drow
          ∧ row_ok pop q (Z.to_nat N) row drow
          ∧ (vert ≠ None ∨ excluding ≠ None →
             Forall (λ j, candidate_distance oracle pop vert smp eb q j ≠ Inf) row).
Proof.
  intros Hlaws Hret.
  destruct (nearest_Return_inv _ _ _ _ _ _ _ _ _ Hret)
    as (qs & pop & eb & -> & -> & Hmask & HN).
  destruct (nearest_rows _ _ Hlaws _ _ _ _ _ _ _ _ _ Hret Hmask)
    as (Hnbs & Hds & Hrows).
  exists qs, pop, eb. split_and!; try done; try lia. intros i Hi.
  destruct (lookup_lt_is_Some_2 qs i Hi) as [q Hq].
  destruct (lookup_lt_is_Some_2 nbs i) as [row Hrow]; [lia|].
  destruct (lookup_lt_is_Some_2 ds i) as [drow Hdrow]; [lia|].
  exists q, row, drow. split_and!; [done..| |].
  - rewrite <-(list_lookup_total_correct _ _ _ Hrow),
      <-(list_lookup_total_correct _ _ _ Hdrow). by apply Hrows.
  - rewrite <-(list_lookup_total_correct _ _ _ Hrow). by apply Hrows.
Qed.

(** C7. When [nearest] returns, for a lawful index, both arrays have shape
    (Q, N), also for [N = 1] where the batched query comes back 1-D, and
    every row of distances is in ascending order. *)
Theorem nearest_shape
    (oracle : point → point → list point → list simplex → nat)
    (knn : list point → point → nat → list nat)
    (query population : ndarray) (N : Z)
    (vert : option (list point)) (smp : option (list simplex))
    (excluding : option (list Z)) (nbs : list (list nat)) (ds : list (list dist)) :
  cKDTree_spec knn →
  nearest oracle knn query population N vert smp excluding = Return (nbs, ds) →
  ndim query = 2%nat ∧ 0 ≤ N
  ∧ has_shape (length (rows_of query)) (Z.to_nat N) nbs
  ∧ has_shape (length (rows_of query)) (Z.to_nat N) ds
  ∧ Forall (Sorted dist_le) ds.
Proof.
  intros Hlaws Hret.
  destruct (nearest_Return_rows _ _ _ _ _ _ _ _ _ _ Hlaws Hret)
    as (qs & pop & eb & -> & -> & _ & HN & Hnbs & Hds & Hrows).
  simpl. split_and!; [done|lia| | |].
  - split; [done|]. apply Forall_lookup. intros i row Hrow.
    destruct (Hrows i) as (q & row' & drow & _ & Hrow' & _ & Hok & _).
    { rewrite <-Hnbs. by eapply lookup_lt_Some. }
    simplify_eq. apply Hok.
  - split; [done|]. apply Forall_lookup. intros i drow Hdrow.
    destruct (Hrows i) as (q & row & drow' & _ & _ & Hdrow' & Hok & _).
    { rewrite <-Hds. by eapply lookup_lt_Some. }
    simplify_eq. destruct Hok as (Hlen & -> & _). by rewrite length_fmap.
  - apply Forall_lookup. intros i drow Hdrow.
    destruct (Hrows i) as (q & row & drow' & _ & _ & Hdrow' & Hok & _).
    { rewrite <-Hds. by eapply lookup_lt_Some. }
    simplify_eq. apply Hok.
Qed.

(** ** Exclusions *)

(** C5. When [nearest] is given an exclusion set and returns, for a lawful
    index, no index named by the exclusion set is in any row of the
    neighbour array.  (The size of the exclusion set plays no part.) *)
Theorem nearest_excludes
    (oracle : point → point → list point → list simplex → nat)
    (knn : list point → point → nat → list nat)
    (query population : ndarray) (N : Z)
    (vert : option (list point)) (smp : option (list simplex))
    (excluding : list Z) (nbs : list (list nat)) (ds : list (list dist)) :
  cKDTree_spec knn →
  nearest oracle knn query population N vert smp (Some excluding)
  = Return (nbs, ds) →
  ∀ row i, row ∈ nbs →
    names_index (length (rows_of population)) excluding i → i ∉ row.
Proof.
  intros Hlaws Hret row i [k Hrow]%list_elem_of_lookup Hi Hin.
  destruct (nearest_Return_rows _ _ _ _ _ _ _ _ _ _ Hlaws Hret)
    as (qs & pop & eb & -> & -> & Hmask & _ & Hnbs & _ & Hrows).
  destruct (Hrows k) as (q & row' & drow & _ & Hrow' & _ & _ & Hreach).
  { rewrite <-Hnbs. by eapply lookup_lt_Some. }
  simplify_eq. simpl in Hi.
  assert (candidate_distance oracle pop vert smp eb q i ≠ Inf) as Hfin.
  { assert (vert ≠ None ∨ Some excluding ≠ None) as Hslow by by right.
    apply Hreach in Hslow. rewrite Forall_forall in Hslow. by apply Hslow. }
  apply candidate_finite in Hfin as [Hfree _].
  by rewrite (excluding_mask_Some _ _ _ _ Hmask Hi) in Hfree.
Qed.

(** ** Agreement with exhaustive search *)

Lemma straight_seq (population : list point) (q : point) :
  (λ i : nat, euclid q (population !!! i)) <$> seq 0 (length population)
  = (λ p, euclid q p) <$> population.
Proof.
  transitivity ((λ p, euclid q p) <$> pick population (seq 0 (length population))).
  - unfold pick. by rewrite <-list_fmap_compose.
  - by rewrite pick_seq.
Qed.

(** The distances of the [k] points that a lawful index returns are the
    [k] smallest distances to the population. *)
Lemma knn_brute_force (knn : list point → point → nat → list nat)
    population q k :
  cKDTree_spec knn → (k ≤ length population)%nat →
  (λ i : nat, euclid q (population !!! i)) <$> knn population q k
  = brute_force_distances population q k.
Proof.
  intros Hlaws Hk. unfold brute_force_distances.
  set (nb := knn population q k).
  set (rest := filter (λ j, j ∉ nb) (seq 0 (length population))).
  assert (nb ++ rest ≡ₚ seq 0 (length population)) as Hperm.
  { apply NoDup_Permutation.
    - apply NoDup_app. split_and!.
      + by apply knn_NoDup.
      + intros i Hi [Hni _]%list_elem_of_filter. done.
      + apply NoDup_filter, NoDup_seq.
    - apply NoDup_seq.
    - intros i. unfold rest.
      rewrite elem_of_app, list_elem_of_filter, elem_of_seq. split.
      + intros [Hi|[_ ?]]; [|done].
        pose proof (knn_bound _ Hlaws _ _ _ _ Hk Hi). lia.
      + intros Hi. destruct (decide (i ∈ nb)); [by left|by right]. }
  assert (length ((λ i : nat, euclid q (population !!! i)) <$> nb) = k) as Hlen.
  { rewrite length_fmap. by apply knn_length. }
  rewrite <-Hlen at 1.
  apply (sorted_prefix_unique _
           ((λ i : nat, euclid q (population !!! i)) <$> rest)).
  - apply Sorted_StronglySorted; [apply _|]. by apply knn_sorted.
  - intros x y (i & -> & Hi)%list_elem_of_fmap (j & -> & Hj)%list_elem_of_fmap.
    apply list_elem_of_filter in Hj as [Hnj Hj%elem_of_seq].
    eapply knn_nearest; [done|done|exact Hi|lia|done].
  - rewrite <-fmap_app, Hperm. by rewrite straight_seq.
Qed.

(** C3. For tables [query] and [population] of [P] points and
    [0 ≤ N ≤ P], [nearest] without boundary and without exclusion set
    returns; row [i] holds [N] pairwise distinct indices of the population,
    in order of non-decreasing distance from query point [i], and their
    distances are those of a brute-force search: the [N] smallest of the
    distances from the query point to all the points. *)
Theorem nearest_brute_force
    (oracle : point → point → list point → list simplex → nat)
    (knn : list point → point → nat → list nat)
    (query population : list point) (N : Z) :
  cKDTree_spec knn →
  0 ≤ N ≤ Z.of_nat (length population) →
  ∃ nbs ds,
    nearest oracle knn (Arr2 query) (Arr2 population) N None None None
    = Return (nbs, ds)
    ∧ has_shape (length query) (Z.to_nat N) nbs
    ∧ has_shape (length query) (Z.to_nat N) ds
    ∧ ∀ i q, query !! i = Some q →
        ∃ row drow,
          nbs !! i = Some row ∧ ds !! i = Some drow
          ∧ length row = Z.to_nat N
          ∧ NoDup row
          ∧ Forall (λ j, (j < length population)%nat) row
          ∧ drow = (λ j : nat, euclid q (population !!! j)) <$> row
          ∧ Sorted dist_le drow
          ∧ drow = brute_force_distances population q (Z.to_nat N).
Proof.
  intros Hlaws HN.
  assert (Z.to_nat N ≤ length population)%nat as Hn by lia.
  eexists _, _. split.
  { rewrite (nearest_Arr2 _ _ _ _ _ _ _ _ (replicate (length population) false))
      by done.
    rewrite first_guess_spec by done. reflexivity. }
  simpl. split_and!.
  - split; [by rewrite length_fmap|]. apply Forall_fmap, Forall_forall.
    intros q _. simpl. by apply knn_length.
  - split; [by rewrite length_fmap|]. apply Forall_fmap, Forall_forall.
    intros q _. simpl. rewrite length_fmap. by apply knn_length.
  - intros i q Hq. eexists _, _. rewrite !list_lookup_fmap, Hq. simpl.
    split_and!; [done|done|by apply knn_length|by apply knn_NoDup| |done| |].
    + apply Forall_forall. intros j Hj. by eapply knn_bound.
    + by apply knn_sorted.
    + by apply knn_brute_force.
Qed.

(** ** [stencil_network] *)

(** C9. For a table of fewer than two nodes, [stencil_network] with a
    connectivity target raises the invalid-count error of [nearest] for
    the count 2, not the connectivity error: the search starts at size 2. *)
Theorem stencil_network_too_few
    (oracle : point → point → list point → list simplex → nat)
    (knn : list point → point → nat → list nat)
    (node_connectivity : list (nat * nat) → Z)
    (nodes : list point) (C : Z) (N : option Z)
    (vert : option (list point)) (smp : option (list simplex)) :
  (length nodes < 2)%nat →
  stencil_network oracle knn node_connectivity (Arr2 nodes) (Some C) N vert smp
  = Raise (StencilError (TooFewPoints 2 (length nodes))).
Proof.
  intros Hfew. unfold stencil_network, nearest. simpl.
  destruct (Z.ltb_spec (Z.of_nat (length nodes)) 2); [done|lia].
Qed.

Section grow.
Variable oracle : point → point → list point → list simplex → nat.
Variable knn : list point → point → nat → list nat.
Variable node_connectivity : list (nat * nat) → Z.
Variables (nodes : list point) (C : Z).
Variables (vert : option (list point)) (smp : option (list simplex)).

Local Abbreviation P := (length nodes).
Local Abbreviation try k :=
  (nearest oracle knn (Arr2 nodes) (Arr2 nodes) k vert smp None).
Local Abbreviation conn := (connectivity node_connectivity).
Local Abbreviation loop fuel :=
  (grow oracle knn node_connectivity fuel (Arr2 nodes) C vert smp).

Local Abbreviation short :=
  (falls_short oracle knn node_connectivity nodes C vert smp).

Lemma grow_no_Timeout fuel : ∀ N s,
  Z.of_nat P - N < Z.of_nat fuel → loop fuel N s ≠ Timeout.
Proof.
  induction fuel as [|fuel IH]; intros N s Hfuel; simpl;
    (destruct (conn s <? C); [|done]);
    (destruct (Z.ltb_spec (Z.of_nat P) (N + 1)); [done|]); [lia|].
  destruct (try (N + 1)) as [[s' dx]| |] eqn:Htry; simpl; [|done|].
  - apply IH. lia.
  - by apply nearest_no_Timeout in Htry.
Qed.

Lemma grow_Return fuel : ∀ N s dx s',
  try N = Return (s, dx) →
  loop fuel N s = Return s' →
  ∃ k dx', N ≤ k ∧ try k = Return (s', dx') ∧ C ≤ conn s' ∧ short N k.
Proof.
  induction fuel as [|fuel IH]; intros N s dx s' Htry Hret; simpl in Hret;
    (destruct (Z.ltb_spec (conn s) C) as [Hlow|Hhigh];
     [|injection Hret as <-; exists N, dx;
       split_and!; [lia|done|done|intros j ?; lia]]);
    (destruct (Z.ltb_spec (Z.of_nat P) (N + 1)); [done|]); [done|].
  destruct (try (N + 1)) as [[s1 dx1]| |] eqn:Htry1; [|done..].
  simpl in Hret.
  destruct (IH _ _ _ _ Htry1 Hret) as (k & dx' & Hk & Htryk & Hconn & Hshort).
  exists k, dx'. split_and!; [lia|done..|].
  intros j Hj. destruct (decide (j = N)) as [->|]; [by eauto|].
  apply Hshort. lia.
Qed.

Lemma grow_short fuel : ∀ N s dx,
  try N = Return (s, dx) →
  short N (Z.of_nat P + 1) →
  N ≤ Z.of_nat P →
  Z.of_nat P - N < Z.of_nat fuel →
  loop fuel N s = Raise (StencilError NoSuchConnectivity).
Proof.
  induction fuel as [|fuel IH]; intros N s dx Htry Hshort HN Hfuel; [lia|].
  simpl. destruct (Hshort N) as (s0 & dx0 & Htry0 & Hconn); [lia|].
  rewrite Htry in Htry0. injection Htry0 as <- <-.
  rewrite (proj2 (Z.ltb_lt _ _) Hconn).
  destruct (Z.ltb_spec (Z.of_nat P) (N + 1)); [done|].
  destruct (Hshort (N + 1)) as (s1 & dx1 & Htry1 & _); [lia|].
  rewrite Htry1. simpl. eapply IH; [done| |lia|lia].
  intros j Hj. apply Hshort. lia.
Qed.
End grow.

Lemma excluding_mask_Raise P excluding e :
  excluding_mask P excluding = Raise e → e = ArrayError.
Proof.
  unfold excluding_mask. destruct excluding as [ex|]; [|done].
  generalize (replicate P false).
  induction ex as [|x ex IH]; intros b; simpl; [done|].
  unfold mark. case_bool_decide; simpl; [apply IH|by intros [= <-]].
Qed.

(** The connectivity error is not among the errors of [nearest]. *)
Lemma nearest_Raise
    (oracle : point → point → list point → list simplex → nat)
    (knn : list point → point → nat → list nat)
    query population N vert smp excluding e :
  nearest oracle knn query population N vert smp excluding = Raise e →
  e ≠ StencilError NoSuchConnectivity.
Proof.
  unfold nearest. intros Hraise.
  destruct (shape0 population) as [P|]; [|by injection Hraise as <-].
  destruct (excluding_mask P excluding) as [eb|e'|] eqn:Hmask;
    simpl in Hraise; [| |done].
  2:{ injection Hraise as <-. by rewrite (excluding_mask_Raise _ _ _ Hmask). }
  repeat match type of Hraise with
         | (if ?b then _ else _) = _ =>
             destruct b; [by injection Hraise as <-|]
         end.
  destruct (first_guess _ _ _ _) as [ds nbs].
  destruct (_ && _); [done|].
  case_bind Hraise [rows|e'|] Hrows; simpl in Hraise; [done| |done].
  injection Hraise as <-.
  apply for_each_Raise in Hrows as (i & _ & Hrow).
  by apply widen_Raise in Hrow as [->| ->].
Qed.

Lemma grow_Raise
    (oracle : point → point → list point → list simplex → nat)
    (knn : list point → point → nat → list nat)
    (node_connectivity : list (nat * nat) → Z)
    (nodes : list point) (C : Z)
    (vert : option (list point)) (smp : option (list simplex)) fuel :
  ∀ N s dx,
    nearest oracle knn (Arr2 nodes) (Arr2 nodes) N vert smp None = Return (s, dx) →
    grow oracle knn node_connectivity fuel (Arr2 nodes) C vert smp N s
    = Raise (StencilError NoSuchConnectivity) →
    falls_short oracle knn node_connectivity nodes C vert smp
      N (Z.of_nat (length nodes) + 1).
Proof.
  induction fuel as [|fuel IH]; intros N s dx Htry Hraise; simpl in Hraise;
    (destruct (Z.ltb_spec (connectivity node_connectivity s) C) as [Hlow|];
     [|done]);
    (destruct (Z.ltb_spec (Z.of_nat (length nodes)) (N + 1));
     [intros j Hj; assert (j = N) as -> by lia; by eauto|]); [done|].
  destruct (nearest _ _ _ _ (N + 1) _ _ _) as [[s1 dx1]|e|] eqn:Htry1;
    simpl in Hraise; [| |done].
  - intros j Hj. destruct (decide (j = N)) as [->|]; [by eauto|].
    apply (IH _ _ _ Htry1 Hraise). lia.
  - injection Hraise as ->. by apply nearest_Raise in Htry1.
Qed.


(** ** Segments do not cross the boundary *)

Lemma nearest_no_crossing
    (oracle : point → point → list point → list simplex → nat)
    (knn : list point → point → nat → list nat)
    query population N vert smp excluding nbs ds :
  cKDTree_spec knn →
  nearest oracle knn query population N (Some vert) smp excluding
  = Return (nbs, ds) →
  ∀ i q row, rows_of query !! i = Some q → nbs !! i = Some row →
    ds !! i = Some ((λ j : nat, euclid q (rows_of population !!! j)) <$> row)
    ∧ ∀ nbr, nbr ∈ row →
        euclid q (rows_of population !!! nbr) ≠ Sqrt 0 →
        oracle q (rows_of population !!! nbr) vert (default [] smp) = 0%nat.
Proof.
  intros Hlaws Hret i q row Hq Hrow.
  destruct (nearest_Return_rows _ _ _ _ _ _ _ _ _ _ Hlaws Hret)
    as (qs & pop & eb & -> & -> & _ & _ & _ & _ & Hrows).
  simpl in *.
  destruct (Hrows i) as (q' & row' & drow & Hq' & Hrow' & Hdrow & Hok & Hreach).
  { by eapply lookup_lt_Some. }
  simplify_eq. destruct Hok as (_ & -> & _). split; [done|].
  intros nbr Hnbr Hfar.
  assert (Some vert ≠ None ∨ excluding ≠ None) as Hslow by by left.
  apply Hreach in Hslow. rewrite Forall_forall in Hslow.
  by apply (candidate_finite _ _ _ _ _ _ _ (Hslow _ Hnbr)).
Qed.

(** A stencil that [stencil_network] returns is the neighbour array of a
    call to [nearest] with the nodes as query and as population. *)
Lemma stencil_network_Return
    (oracle : point → point → list point → list simplex → nat)
    (knn : list point → point → nat → list nat)
    (node_connectivity : list (nat * nat) → Z)
    nodes C N vert smp s :
  stencil_network oracle knn node_connectivity nodes C N vert smp = Return s →
  ∃ k dx, nearest oracle knn nodes nodes k vert smp None = Return (s, dx).
Proof.
  unfold stencil_network. intros Hret. destruct C as [C|].
  - destruct (nearest oracle knn nodes nodes 2 vert smp None)
      as [[s2 dx2]| |] eqn:Htry2; [|done..].
    simpl in Hret.
    destruct (nearest_Return_inv _ _ _ _ _ _ _ _ _ Htry2)
      as (rows & ? & ? & -> & _).
    destruct (grow_Return _ _ _ _ _ _ _ _ _ _ _ _ Htry2 Hret)
      as (k & dx & _ & Htry & _).
    by exists k, dx.
  - case_bind Hret [k| |] Hbind; [|done..].
    simpl in Hret.
    destruct (nearest oracle knn nodes nodes k vert smp None)
      as [[s' dx]| |] eqn:Htry; [|done..].
    injection Hret as <-. by exists k, dx.
Qed.

(** C1. For a lawful index: when [nearest] is given the vertices of a
    boundary and returns, every neighbour that it lists at a nonzero
    distance is joined to its query point by a segment whose intersection
    count with the boundary is 0; and in a stencil that [stencil_network]
    returns for such a boundary, every neighbour of a node that does not
    coincide with the node is joined to it by such a segment. *)
Theorem neighbours_do_not_cross
    (oracle : point → point → list point → list simplex → nat)
    (knn : list point → point → nat → list nat)
    (node_connectivity : list (nat * nat) → Z)
    (vert : list point) (smp : option (list simplex))
    (query population : ndarray) (N : Z) (excluding : option (list Z))
    (nbs : list (list nat)) (ds : list (list dist))
    (nodes : ndarray) (C N' : option Z) (s : list (list nat)) :
  cKDTree_spec knn →
  (nearest oracle knn query population N (Some vert) smp excluding
   = Return (nbs, ds) →
   ∀ i j q row drow nbr d,
     rows_of query !! i = Some q →
     nbs !! i = Some row → ds !! i = Some drow →
     row !! j = Some nbr → drow !! j = Some d →
     d ≠ Sqrt 0 →
     oracle q (rows_of population !!! nbr) vert (default [] smp) = 0%nat)
  ∧ (stencil_network oracle knn node_connectivity nodes C N' (Some vert) smp
     = Return s →
     ∀ i j node row nbr,
       rows_of nodes !! i = Some node →
       s !! i = Some row → row !! j = Some nbr →
       euclid node (rows_of nodes !!! nbr) ≠ Sqrt 0 →
       oracle node (rows_of nodes !!! nbr) vert (default [] smp) = 0%nat).
Proof.
  intros Hlaws. split.
  - intros Hret i j q row drow nbr d Hq Hrow Hdrow Hnbr Hd Hfar.
    destruct (nearest_no_crossing _ _ _ _ _ _ _ _ _ _ Hlaws Hret _ _ _ Hq Hrow)
      as [Hds Hfree].
    rewrite Hds in Hdrow. injection Hdrow as <-.
    rewrite list_lookup_fmap, Hnbr in Hd. injection Hd as <-.
    apply Hfree; [by eapply list_elem_of_lookup_2|done].
  - intros Hret i j node row nbr Hnode Hrow Hnbr Hfar.
    apply stencil_network_Return in Hret as (k & dx & Hret).
    destruct (nearest_no_crossing _ _ _ _ _ _ _ _ _ _ Hlaws Hret _ _ _ Hnode Hrow)
      as [_ Hfree].
    apply Hfree; [by eapply list_elem_of_lookup_2|done].
Qed.

(** ** The widening loop on a population of one point *)

(** C2. Where the population has a single point and that point is
    excluded, the enlarged query size is the population size 1 and the
    kept distance could only be infinite: the widening loop should raise
    the [StencilError] that names the count and the query point.  But
    the one-point query for one neighbour returns scalars, and [nearest]
    raises numpy's error on indexing a scalar (line 173).  The batched
    query of line 144 has the [N == 1] case handled (lines 145-147); the
    query of line 168 has not. *)
Theorem widening_single_point
    (oracle : point → point → list point → list simplex → nat)
    (knn : list point → point → nat → list nat)
    (q p : point) (vert : option (list point)) (smp : option (list simplex)) :
  cKDTree_spec knn →
  nearest oracle knn (Arr2 [q]) (Arr2 [p]) 1 vert smp (Some [0])
  = Raise ArrayError.
Proof.
  intros Hlaws.
  rewrite (nearest_Arr2 _ _ _ _ _ _ _ _ [true]) by (done || simpl; lia).
  rewrite first_guess_spec by (done || simpl; lia).
  assert (knn [p] q 1%nat = [0%nat]) as Hknn.
  { pose proof (knn_length _ Hlaws [p] q 1%nat) as Hlen.
    pose proof (knn_bound _ Hlaws [p] q 1%nat) as Hbound. simpl in *.
    destruct (knn [p] q 1%nat) as [|i [|??]];
      try (specialize (Hlen ltac:(lia)); done).
    specialize (Hbound i ltac:(lia) ltac:(by left)).
    assert (i = 0%nat) as -> by lia. done. }
  rewrite andb_false_r. simpl. change (Z.to_nat 1) with 1%nat.
  assert (masked_distance oracle [p] vert smp [true] q [0%nat] = [Inf]) as Hinf.
  { rewrite masked_distance_fmap.
    change ([candidate_distance oracle [p] vert smp [true] q 0%nat] = [Inf]).
    by rewrite candidate_distance_unfold. }
  rewrite Hknn. unfold refine_row. simpl length. rewrite widen_step.
  by rewrite Hinf.
Qed.

(** With two points or more in the population, the only error of the
    slow path is the module's own: it names the count and a query point,
    and the query of the whole population for that point has kept an
    infinite distance. *)
Lemma nearest_Raise_terminal
    (oracle : point → point → list point → list simplex → nat)
    (knn : list point → point → nat → list nat)
    (query population : list point) (N : Z)
    (vert : option (list point)) (smp : option (list simplex))
    (excluding : option (list Z)) (eb : list bool) (e : exn) :
  excluding_mask (length population) excluding = Return eb →
  0 ≤ N ≤ Z.of_nat (length population) →
  (2 ≤ length population)%nat →
  nearest oracle knn (Arr2 query) (Arr2 population) N vert smp excluding
  = Raise e →
  ∃ q, q ∈ query
    ∧ e = StencilError (CrossingBoundary N q)
    ∧ let full :=
        masked_distance oracle population vert smp eb q
          (knn population q (length population)) in
      existsb isinf (pick full (take (Z.to_nat N) (argsort full))) = true.
Proof.
  intros Hmask HN HP Hraise.
  rewrite (nearest_Arr2 _ _ _ _ _ _ _ _ _ Hmask HN) in Hraise.
  destruct (_ && _); [done|].
  case_bind Hraise [rows|e'|] Hrows; simpl in Hraise; [done| |done].
  injection Hraise as <-.
  apply for_each_Raise in Hrows as (i & Hi%elem_of_seq & Hrow).
  exists (query !!! i). split.
  { apply list_elem_of_lookup_total_2. lia. }
  unfold refine_row in Hrow.
  destruct (decide (N = 0)) as [->|HN0].
  - rewrite first_guess_zero in Hrow. simpl in Hrow.
    assert (replicate (length query) (@nil nat) !!! i = []) as Hnil.
    { apply list_lookup_total_correct, lookup_replicate_2. lia. }
    rewrite Hnil in Hrow. by rewrite widen_finite in Hrow.
  - by apply widen_Raise_terminal in Hrow; [|lia..].
Qed.

(** ** The edge list of a stencil *)

Lemma stencils_to_edges_from (w k : nat) (stencils : list (list nat)) :
  Forall (λ row, length row = w) stencils →
  zip (concat ((λ i, replicate w i) <$> seq k (length stencils)))
      (concat stencils)
  = concat (imap (λ i row, (λ e, ((k + i)%nat, e)) <$> row) stencils).
Proof.
  intros Hrows. revert k.
  induction Hrows as [|row stencils Hrow _ IH]; intros k; [done|].
  csimpl. rewrite zip_with_app by (by rewrite length_replicate).
  rewrite zip_with_replicate_l by lia. rewrite Nat.add_0_r. f_equal.
  rewrite IH. f_equal. apply imap_ext. intros i r _. simpl.
  by replace (k + S i)%nat with (S k + i)%nat by lia.
Qed.

(** The edges handed to the graph library are the (row index, entry)
    pairs of the table. *)
Lemma stencils_to_edges_pairs (w : nat) (stencils : list (list nat)) :
  Forall (λ row, length row = w) stencils →
  stencils_to_edges stencils = row_entry_pairs stencils.
Proof.
  intros Hrows. unfold stencils_to_edges, row_entry_pairs.
  destruct stencils as [|row stencils]; [done|].
  change ((row :: stencils) !!! 0%nat) with row.
  rewrite (Forall_inv Hrows). by rewrite (stencils_to_edges_from w 0).
Qed.

Lemma connectivity_pairs (node_connectivity : list (nat * nat) → Z)
    (w : nat) (stencils : list (list nat)) :
  Forall (λ row, length row = w) stencils →
  connectivity node_connectivity stencils
  = node_connectivity (row_entry_pairs stencils).
Proof.
  intros Hrows. unfold connectivity. by rewrite (stencils_to_edges_pairs w).
Qed.

(** * Examples *)

(** A wall at [x = 2] on the line of four points: the two neighbours of
    the point at [x = 3] are itself and the point at [x = 6], and the
    segment to the latter does not cross. *)
Lemma neighbours_do_not_cross_example :
  cKDTree_spec brute_knn
  ∧ nearest wall_crossing brute_knn (Arr2 line4) (Arr2 line4) 2
      (Some [[2; 5]]) None None
    = Return ([[0; 1]; [1; 0]; [2; 3]; [3; 2]]%nat,
              [[Sqrt 0; Sqrt 1]; [Sqrt 0; Sqrt 1];
               [Sqrt 0; Sqrt 9]; [Sqrt 0; Sqrt 9]])
  ∧ wall_crossing [3; 0] [6; 0] [[2; 5]] [] = 0%nat.
Proof.
  split; [exact brute_knn_spec|]. split; [by vm_compute|].
  refine (proj1 (neighbours_do_not_cross wall_crossing brute_knn
                   edge_count_connectivity [[2; 5]] None
                   (Arr2 line4) (Arr2 line4) 2 None
                   [[0; 1]; [1; 0]; [2; 3]; [3; 2]]%nat
                   [[Sqrt 0; Sqrt 1]; [Sqrt 0; Sqrt 1];
                    [Sqrt 0; Sqrt 9]; [Sqrt 0; Sqrt 9]]
                   (Arr2 line4) None None [] brute_knn_spec)
            _ 2%nat 1%nat [3; 0] [2; 3]%nat [Sqrt 0; Sqrt 9] 3%nat (Sqrt 9)
            _ _ _ _ _ _);
    by vm_compute.
Defined.

(** A population of one point, excluded. *)
Lemma widening_single_point_example :
  cKDTree_spec brute_knn
  ∧ nearest no_crossing brute_knn (Arr2 [[0; 0]]) (Arr2 [[1; 0]]) 1
      None None (Some [0])
    = Raise ArrayError.
Proof.
  split; [exact brute_knn_spec|].
  exact (widening_single_point no_crossing brute_knn [0; 0] [1; 0] None None
           brute_knn_spec).
Defined.

Lemma nearest_brute_force_example :
  cKDTree_spec brute_knn
  ∧ 0 ≤ 2 ≤ Z.of_nat (length line4)
  ∧ ∃ nbs ds,
      nearest no_crossing brute_knn (Arr2 line4) (Arr2 line4) 2 None None None
      = Return (nbs, ds)
      ∧ has_shape 4 2 nbs.
Proof.
  split; [exact brute_knn_spec|]. split; [by vm_compute|].
  destruct (nearest_brute_force no_crossing brute_knn line4 line4 2
              brute_knn_spec)
    as (nbs & ds & Hret & Hshape & _); [by vm_compute|].
  by exists nbs, ds.
Defined.


Lemma nearest_excludes_example :
  cKDTree_spec brute_knn
  ∧ nearest no_crossing brute_knn (Arr2 line4) (Arr2 line4) 2
      None None (Some [0; -1])
    = Return ([[1; 2]; [1; 2]; [2; 1]; [2; 1]]%nat,
              [[Sqrt 1; Sqrt 9]; [Sqrt 0; Sqrt 4];
               [Sqrt 0; Sqrt 4]; [Sqrt 9; Sqrt 25]])
  ∧ 3%nat ∉ [2; 1]%nat.
Proof.
  split; [exact brute_knn_spec|]. split; [by vm_compute|].
  apply (nearest_excludes no_crossing brute_knn (Arr2 line4) (Arr2 line4) 2
           None None [0; -1]
           [[1; 2]; [1; 2]; [2; 1]; [2; 1]]%nat
           [[Sqrt 1; Sqrt 9]; [Sqrt 0; Sqrt 4];
            [Sqrt 0; Sqrt 4]; [Sqrt 9; Sqrt 25]]
           brute_knn_spec).
  - by vm_compute.
  - do 3 right. left.
  - exists (-1). split; [right; left|reflexivity].
Defined.

(** One neighbour, the nearest point excluded: the slow path with the
    squeezed query of [N = 1]. *)
Lemma nearest_shape_example :
  cKDTree_spec brute_knn
  ∧ nearest no_crossing brute_knn (Arr2 line4) (Arr2 line4) 1
      None None (Some [0])
    = Return ([[1]; [1]; [2]; [3]]%nat,
              [[Sqrt 1]; [Sqrt 0]; [Sqrt 0]; [Sqrt 0]])
  ∧ has_shape 4 1 [[1]; [1]; [2]; [3]]%nat.
Proof.
  split; [exact brute_knn_spec|]. split; [by vm_compute|].
  apply (nearest_shape no_crossing brute_knn (Arr2 line4) (Arr2 line4) 1
           None None (Some [0]) [[1]; [1]; [2]; [3]]%nat
           [[Sqrt 1]; [Sqrt 0]; [Sqrt 0]; [Sqrt 0]] brute_knn_spec).
  by vm_compute.
Defined.

Lemma nearest_zero_example :
  Forall (λ e, - Z.of_nat (length line4) ≤ e < Z.of_nat (length line4)) [0; -1]
  ∧ nearest wall_crossing brute_knn (Arr2 line4) (Arr2 line4) 0
      (Some [[2; 5]]) None (Some [0; -1])
    = Return ([[]; []; []; []], [[]; []; []; []]).
Proof.
  assert (Forall (λ e, - Z.of_nat (length line4) ≤ e < Z.of_nat (length line4))
            [0; -1]) as Hvalid.
  { repeat constructor; simpl; lia. }
  split; [exact Hvalid|].
  destruct (nearest_zero wall_crossing brute_knn line4 line4
              (Some [[2; 5]]) None (Some [0; -1]))
    as (nbs & ds & Hret & -> & -> & _).
  { by intros ex [= <-]. }
  exact Hret.
Defined.

Lemma stencil_network_too_few_example :
  (length [[1; 1]] < 2)%nat
  ∧ stencil_network no_crossing brute_knn edge_count_connectivity
      (Arr2 [[1; 1]]) (Some 1) None None None
    = Raise (StencilError (TooFewPoints 2 1)).
Proof.
  split; [simpl; lia|].
  apply (stencil_network_too_few no_crossing brute_knn edge_count_connectivity
           [[1; 1]] 1 None None None).
  simpl. lia.
Defined.

(** * Further properties *)

(** ** The graph of a stencil *)

Lemma elem_of_concat {A} (x : A) (ls : list (list A)) :
  x ∈ concat ls ↔ ∃ l, x ∈ l ∧ l ∈ ls.
Proof.
  induction ls as [|l ls IH]; simpl.
  - split; [by intros ?%elem_of_nil|by intros (? & _ & ?%elem_of_nil)].
  - rewrite elem_of_app, IH. split.
    + intros [?|(l' & ? & ?)]; [exists l|exists l']; split; try done;
        [by left|by right].
    + intros (l' & ? & [->|?]%elem_of_cons); [by left|right; by exists l'].
Qed.

Lemma row_entry_pairs_length (w : nat) (stencils : list (list nat)) :
  Forall (λ row, length row = w) stencils →
  length (row_entry_pairs stencils) = (length stencils * w)%nat.
Proof.
  intros Hrows. unfold row_entry_pairs.
  assert (∀ (f : nat → nat) , length
            (concat (imap (λ i row, (λ e, (f i, e)) <$> row) stencils))
          = (length stencils * w)%nat) as Hgen.
  { induction Hrows as [|row stencils Hrow _ IH]; intros f; [done|].
    simpl. rewrite length_app, length_fmap, Hrow. f_equal.
    apply (IH (f ∘ S)). }
  apply (Hgen id).
Qed.

Lemma elem_of_row_entry_pairs (stencils : list (list nat)) (i e : nat) :
  (i, e) ∈ row_entry_pairs stencils
  ↔ ∃ row, stencils !! i = Some row ∧ e ∈ row.
Proof.
  unfold row_entry_pairs. rewrite elem_of_concat. split.
  - intros (l & Hl & (k & row & -> & Hrow)%elem_of_lookup_imap).
    apply list_elem_of_fmap in Hl as (e' & [= -> ->] & He). by exists row.
  - intros (row & Hrow & He). exists ((λ e, (i, e)) <$> row). split.
    + by apply list_elem_of_fmap_2.
    + by apply (elem_of_lookup_imap_2 (λ i row, (λ e, (i, e)) <$> row)).
Qed.

(** X1. For a stencil table whose rows have one width [w], the edge list
    of [stencils_to_edges] is the list of (row index, entry) pairs, row
    after row: it has one edge per entry, duplicates and self edges
    included, [(i, e)] is an edge exactly when [e] is an entry of row
    [i], and [connectivity] and [is_connected] hand this list to the
    graph library. *)
Theorem stencil_edges
    (node_connectivity : list (nat * nat) → Z)
    (graph_is_connected : list (nat * nat) → bool)
    (w : nat) (stencils : list (list nat)) :
  Forall (λ row, length row = w) stencils →
  stencils_to_edges stencils = row_entry_pairs stencils
  ∧ length (stencils_to_edges stencils) = (length stencils * w)%nat
  ∧ (∀ i e, (i, e) ∈ stencils_to_edges stencils
            ↔ ∃ row, stencils !! i = Some row ∧ e ∈ row)
  ∧ connectivity node_connectivity stencils
    = node_connectivity (row_entry_pairs stencils)
  ∧ is_connected graph_is_connected stencils
    = graph_is_connected (row_entry_pairs stencils).
Proof.
  intros Hrows. pose proof (stencils_to_edges_pairs w _ Hrows) as Hedges.
  unfold connectivity, is_connected. rewrite Hedges.
  split_and!; [done|by apply row_entry_pairs_length| |done..].
  intros i e. apply elem_of_row_entry_pairs.
Qed.

Lemma stencil_edges_example :
  Forall (λ row, length row = 2%nat) [[0; 1]; [1; 0]; [2; 1]]%nat
  ∧ stencils_to_edges [[0; 1]; [1; 0]; [2; 1]]%nat
    = [(0, 0); (0, 1); (1, 1); (1, 0); (2, 2); (2, 1)]%nat.
Proof.
  assert (Forall (λ row, length row = 2%nat) [[0; 1]; [1; 0]; [2; 1]]%nat)
    as Hrows by (by repeat constructor).
  split; [exact Hrows|].
  by rewrite (proj1 (stencil_edges (λ _, 0) (λ _, true) 2 _ Hrows)).
Defined.

(** ** Boundary-aware distance *)

Lemma sum_sq_nonneg (p test : point) : 0 ≤ sum_sq p test.
Proof.
  unfold sum_sq. revert test.
  induction p as [|x p IH]; intros [|y test]; simpl; try lia.
  specialize (IH test). pose proof (Z.pow_nonneg (x - y) 2). nia.
Qed.

Lemma sum_sq_diag (p : point) : sum_sq p p = 0.
Proof.
  unfold sum_sq. induction p as [|x p IH]; simpl; [done|].
  rewrite IH, Z.sub_diag. done.
Qed.

(** X2. [distance] gives one entry per candidate.  A candidate that
    coincides with the test point is at distance 0 whatever the oracle
    counts; a candidate whose segment has count 0 is at its Euclidean
    distance; any other candidate is at infinity. *)
Theorem distance_entries
    (oracle : point → point → list point → list simplex → nat)
    (test : point) (pnts : list point)
    (vert : option (list point)) (smp : option (list simplex)) :
  length (distance oracle test pnts vert smp) = length pnts
  ∧ ∀ i p, pnts !! i = Some p →
      (p = test → distance oracle test pnts vert smp !! i = Some (Sqrt 0))
      ∧ (oracle test p (default [] vert) (default [] smp) = 0%nat →
         distance oracle test pnts vert smp !! i = Some (euclid test p))
      ∧ (euclid test p ≠ Sqrt 0 →
         (0 < oracle test p (default [] vert) (default [] smp))%nat →
         distance oracle test pnts vert smp !! i = Some Inf).
Proof.
  unfold distance. split; [by rewrite length_fmap|].
  intros i p Hp. rewrite list_lookup_fmap, Hp. simpl. split_and!.
  - intros ->. unfold euclid, nonzero. by rewrite sum_sq_diag.
  - intros ->. by destruct (negb _).
  - intros Hfar Hcross. destruct (Z.eqb_spec (sum_sq p test) 0) as [Hz|_].
    + exfalso. apply Hfar. unfold euclid. by rewrite Hz.
    + simpl. by rewrite (proj2 (Nat.ltb_lt _ _) Hcross).
Qed.

Lemma distance_entries_example :
  distance wall_crossing [0; 0] [[0; 0]; [1; 0]; [3; 0]] (Some [[2; 5]]) None
  = [Sqrt 0; Sqrt 1; Inf].
Proof.
  pose proof (distance_entries wall_crossing [0; 0] [[0; 0]; [1; 0]; [3; 0]]
                (Some [[2; 5]]) None) as [_ Hentries].
  apply list_eq. intros [|[|[|i]]]; [| | |done].
  - by apply (Hentries 0%nat [0; 0]).
  - by apply (Hentries 1%nat [1; 0]).
  - apply (Hentries 2%nat [3; 0]); [done|done|vm_compute; lia].
Defined.

(** ** Argument checks of [nearest] *)

(** X3. Once the exclusion mask is built, [nearest] checks its arguments
    in the order of lines 121-135 and reports the first failure: a query
    that is not 2-D, then a population that is not 2-D, then a count above
    the population size, then a negative count. *)
Theorem nearest_argument_checks
    (oracle : point → point → list point → list simplex → nat)
    (knn : list point → point → nat → list nat)
    (query population : ndarray) (N : Z)
    (vert : option (list point)) (smp : option (list simplex))
    (excluding : option (list Z)) (P : nat) (eb : list bool) :
  shape0 population = Some P →
  excluding_mask P excluding = Return eb →
  (ndim query ≠ 2%nat →
   nearest oracle knn query population N vert smp excluding
   = Raise (StencilError QueryNot2D))
  ∧ (ndim query = 2%nat → ndim population ≠ 2%nat →
     nearest oracle knn query population N vert smp excluding
     = Raise (StencilError PopulationNot2D))
  ∧ (ndim query = 2%nat → ndim population = 2%nat → Z.of_nat P < N →
     nearest oracle knn query population N vert smp excluding
     = Raise (StencilError (TooFewPoints N P)))
  ∧ (ndim query = 2%nat → ndim population = 2%nat → N < 0 →
     nearest oracle knn query population N vert smp excluding
     = Raise (StencilError NegativeCount)).
Proof.
  intros HP Hmask. unfold nearest. rewrite HP, Hmask. simpl.
  split_and!.
  - intros Hq%Nat.eqb_neq. by rewrite Hq.
  - intros Hq%Nat.eqb_eq Hp%Nat.eqb_neq. by rewrite Hq, Hp.
  - intros Hq%Nat.eqb_eq Hp%Nat.eqb_eq HN%Z.ltb_lt. by rewrite Hq, Hp, HN.
  - intros Hq%Nat.eqb_eq Hp%Nat.eqb_eq HN. rewrite Hq, Hp. simpl.
    rewrite (proj2 (Z.ltb_ge _ _)) by lia. by rewrite (proj2 (Z.ltb_lt _ _) HN).
Qed.

Lemma nearest_argument_checks_example :
  shape0 (Arr1 [1; 2; 3]) = Some 3%nat
  ∧ excluding_mask 3 None = Return [false; false; false]
  ∧ nearest no_crossing brute_knn (Arr1 [0; 0]) (Arr1 [1; 2; 3]) 7 None None None
    = Raise (StencilError QueryNot2D)
  ∧ nearest no_crossing brute_knn (Arr2 line4) (Arr1 [1; 2; 3]) 7 None None None
    = Raise (StencilError PopulationNot2D).
Proof.
  split; [done|]. split; [done|].
  pose proof (nearest_argument_checks no_crossing brute_knn (Arr1 [0; 0])
                (Arr1 [1; 2; 3]) 7 None None None 3 [false; false; false]
                eq_refl eq_refl) as (Hquery & _).
  pose proof (nearest_argument_checks no_crossing brute_knn (Arr2 line4)
                (Arr1 [1; 2; 3]) 7 None None None 3 [false; false; false]
                eq_refl eq_refl) as (_ & Hpopulation & _).
  split; [by apply Hquery|by apply Hpopulation].
Defined.

Lemma mark_all_invalid (P : nat) (e : Z) : ∀ excluding b,
  e ∈ excluding → ¬ (- Z.of_nat P ≤ e < Z.of_nat P) →
  mark_all P b excluding = Raise ArrayError.
Proof.
  induction excluding as [|x ex IH]; intros b He Hbad; [by apply elem_of_nil in He|].
  simpl. unfold mark. case_bool_decide as Hx; simpl; [|done].
  apply elem_of_cons in He as [->|He]; [done|by apply IH].
Qed.

(** X4. An exclusion index outside [-P, P) makes [nearest] fail with
    numpy's index error while the mask is built, before any check of the
    shapes or of the count; so does a 0-d population, which has no
    [shape[0]]. *)
Theorem nearest_bad_exclusion
    (oracle : point → point → list point → list simplex → nat)
    (knn : list point → point → nat → list nat)
    (query population : ndarray) (N : Z)
    (vert : option (list point)) (smp : option (list simplex))
    (excluding : list Z) (P : nat) (e : Z) :
  (shape0 population = None →
   ∀ excluding', nearest oracle knn query population N vert smp excluding'
                 = Raise ArrayError)
  ∧ (shape0 population = Some P →
     e ∈ excluding → ¬ (- Z.of_nat P ≤ e < Z.of_nat P) →
     nearest oracle knn query population N vert smp (Some excluding)
     = Raise ArrayError).
Proof.
  unfold nearest. split.
  - by intros -> ?.
  - intros -> He Hbad. unfold excluding_mask.
    by rewrite (mark_all_invalid P e excluding _ He Hbad).
Qed.

Lemma nearest_bad_exclusion_example :
  shape0 (Arr2 line4) = Some 4%nat
  ∧ 4 ∈ [0; 4]
  ∧ ¬ (- Z.of_nat 4 ≤ 4 < Z.of_nat 4)
  ∧ nearest no_crossing brute_knn (Arr1 [0; 0]) (Arr2 line4) (-1)
      None None (Some [0; 4])
    = Raise ArrayError.
Proof.
  assert (4 ∈ [0; 4]) as Hin by (right; left).
  assert (¬ (- Z.of_nat 4 ≤ 4 < Z.of_nat 4)) as Hbad by (simpl; lia).
  split_and!; [done| exact Hin | exact Hbad |].
  exact (proj2 (nearest_bad_exclusion no_crossing brute_knn (Arr1 [0; 0])
                  (Arr2 line4) (-1) None None [0; 4] 4 4) eq_refl Hin Hbad).
Defined.

(** ** Termination *)

(** X5. Both searches come to an end on every input: the widening loop
    of [nearest] needs no more turns than the population has points, the
    size loop of [stencil_network] no more than there are nodes. *)
Theorem searches_terminate
    (oracle : point → point → list point → list simplex → nat)
    (knn : list point → point → nat → list nat)
    (node_connectivity : list (nat * nat) → Z)
    (query population nodes : ndarray) (N : Z) (C N' : option Z)
    (vert : option (list point)) (smp : option (list simplex))
    (excluding : option (list Z)) :
  nearest oracle knn query population N vert smp excluding ≠ Timeout
  ∧ stencil_network oracle knn node_connectivity nodes C N' vert smp ≠ Timeout.
Proof.
  split; [apply nearest_no_Timeout|].
  unfold stencil_network. destruct C as [C|].
  - destruct (nearest oracle knn nodes nodes 2 vert smp None)
      as [[s dx]|e|] eqn:Htry; simpl; [|done|by apply nearest_no_Timeout in Htry].
    destruct (nearest_Return_inv _ _ _ _ _ _ _ _ _ Htry)
      as (rows & ? & ? & -> & _).
    simpl. apply grow_no_Timeout. lia.
  - destruct N' as [n|]; simpl.
    + destruct (nearest oracle knn nodes nodes n vert smp None)
        as [[s dx]|e|] eqn:Htry; simpl; [done..|by apply nearest_no_Timeout in Htry].
    + destruct (shape0 nodes) as [P|]; simpl; [|done].
      destruct (nearest oracle knn nodes nodes _ vert smp None)
        as [[s dx]|e|] eqn:Htry; simpl; [done..|by apply nearest_no_Timeout in Htry].
Qed.

(** ** The rows of the slow path: distinct, nearest, enough *)

Lemma pick_NoDup {A} `{Inhabited A} (a : list A) (idx : list nat) :
  NoDup a → NoDup idx → Forall (λ i, (i < length a)%nat) idx →
  NoDup (pick a idx).
Proof.
  intros Ha Hidx Hlt. unfold pick. apply NoDup_fmap_2_strong; [|done].
  rewrite Forall_forall in Hlt. intros i j Hi%Hlt Hj%Hlt Heq.
  destruct (lookup_lt_is_Some_2 a i Hi) as [x Hx].
  destruct (lookup_lt_is_Some_2 a j Hj) as [y Hy].
  rewrite (list_lookup_total_correct _ _ _ Hx),
    (list_lookup_total_correct _ _ _ Hy) in Heq. subst y.
  exact (NoDup_lookup _ _ _ _ Ha Hx Hy).
Qed.

(** A position among the first [n] of [argsort d] holds an entry that is
    no greater than the entry of a position left out. *)
Lemma argsort_take_le (d : list dist) (n a b : nat) :
  a ∈ take n (argsort d) → (b < length d)%nat → b ∉ take n (argsort d) →
  dist_le (d !!! a) (d !!! b).
Proof.
  intros Ha Hb Hnb. pose proof (argsort_by_key d) as Hs.
  rewrite <-(take_drop n (argsort d)) in Hs.
  apply (StronglySorted_app_1_elem_of _ _ _ _ _ Hs); [done|].
  assert (b ∈ argsort d) as Hin.
  { rewrite argsort_Permutation, elem_of_seq. lia. }
  rewrite <-(take_drop n (argsort d)), elem_of_app in Hin. by destruct Hin.
Qed.

Lemma length_filter_fmap {A B} (f : A → B) (Pr : B → Prop)
    `{∀ y, Decision (Pr y)} (l : list A) :
  length (filter Pr (f <$> l)) = length (filter (λ x, Pr (f x)) l).
Proof.
  induction l as [|x l IH]; [done|]. csimpl.
  rewrite !filter_cons. destruct (decide (Pr (f x))); simpl; by rewrite IH.
Qed.

(** In a sorted list the finite distances come first. *)
Lemma sorted_finite_prefix (l : list dist) : ∀ n,
  StronglySorted dist_le l →
  (n ≤ length (filter (λ x, x ≠ Inf) l))%nat →
  Forall (λ x, x ≠ Inf) (take n l).
Proof.
  induction l as [|x l IH]; intros n Hl Hn; [by rewrite take_nil|].
  destruct n as [|n]; [constructor|]. simpl.
  apply StronglySorted_cons in Hl as [Hx Hl].
  destruct (decide (x = Inf)) as [->|Hfin].
  - exfalso. rewrite filter_cons_False in Hn by (by intros ?).
    assert (filter (λ x, x ≠ Inf) l = []) as Hnone.
    { clear -Hx. induction Hx as [|y l Hy _ IHl]; [done|].
      rewrite filter_cons_False; [done|].
      destruct y as [r|]; [by compute in Hy|by intros ?]. }
    rewrite Hnone in Hn. simpl in Hn. lia.
  - rewrite filter_cons_True in Hn by done. simpl in Hn.
    constructor; [done|]. apply IH; [done|lia].
Qed.

Lemma elem_of_reachable
    (oracle : point → point → list point → list simplex → nat)
    (population : list point)
    (vert : option (list point)) (smp : option (list simplex))
    (excluding_bool : list bool) (q : point) (j : nat) :
  j ∈ reachable oracle population vert smp excluding_bool q
  ↔ (j < length population)%nat
    ∧ candidate_distance oracle population vert smp excluding_bool q j ≠ Inf.
Proof.
  unfold reachable. rewrite list_elem_of_filter, elem_of_seq.
  split; intros [??]; split; (done || lia).
Qed.

Section row_search.
Variable intersection_count : point → point → list point → list simplex → nat.
Variable knn : list point → point → nat → list nat.
Variables (population : list point) (N : Z).
Variables (vert : option (list point)) (smp : option (list simplex)).
Variable excluding_bool : list bool.
Variable q : point.
Hypothesis knn_spec : cKDTree_spec knn.
Hypothesis Hn : (Z.to_nat N ≤ length population)%nat.

Local Abbreviation P := (length population).
Local Abbreviation n := (Z.to_nat N).
Local Abbreviation masked :=
  (masked_distance intersection_count population vert smp excluding_bool q).
Local Abbreviation candidate :=
  (candidate_distance intersection_count population vert smp excluding_bool q).
Local Abbreviation straight := (λ i : nat, euclid q (population !!! i)).
Local Abbreviation loop :=
  (widen intersection_count knn population N vert smp excluding_bool q).
Local Abbreviation reach :=
  (reachable intersection_count population vert smp excluding_bool q).
Local Abbreviation optimal :=
  (nearest_reachable intersection_count population vert smp excluding_bool q).
Local Abbreviation kept_dists k :=
  (pick (masked (knn population q k))
     (take n (argsort (masked (knn population q k))))).
Local Abbreviation kept_nbrs k :=
  (pick (knn population q k)
     (take n (argsort (masked (knn population q k))))).
Local Abbreviation next_size qs :=
  (if (P <? qs + n)%nat then P else (qs + n)%nat).

Lemma order_bound k :
  (k ≤ P)%nat →
  Forall (λ a, (a < length (knn population q k))%nat)
    (take n (argsort (masked (knn population q k)))).
Proof.
  intros Hk. apply Forall_forall. intros a Ha%subseteq_take%argsort_lt.
  by rewrite masked_distance_fmap, length_fmap in Ha.
Qed.

Lemma kept_row_NoDup k : (k ≤ P)%nat → NoDup (kept_nbrs k).
Proof.
  intros Hk. apply pick_NoDup; [by apply knn_NoDup| |by apply order_bound].
  eapply sublist_NoDup; [apply argsort_NoDup|apply sublist_take].
Qed.

Lemma widen_NoDup fuel : ∀ qs nb d di nb' d',
  NoDup nb → loop fuel qs nb d di = Return (nb', d') → NoDup nb'.
Proof.
  induction fuel as [|fuel IH]; intros qs nb d di nb' d' Hnb Hret.
  - simpl in Hret. destruct (existsb isinf di); [done|]. by injection Hret as <- <-.
  - rewrite widen_step in Hret.
    destruct (existsb isinf di); [|by injection Hret as <- <-].
    destruct (next_size qs =? 1)%nat; [done|]. cbv zeta in Hret.
    destruct (_ && _); [done|]. eapply IH; [|exact Hret].
    apply kept_row_NoDup. destruct (Nat.ltb_spec P (qs + n)); lia.
Qed.

Lemma knn_optimal : optimal (knn population q n).
Proof.
  intros i j Hi [Hj _]%elem_of_reachable Hnj.
  exact (knn_nearest _ knn_spec population q n i j Hn Hi Hj Hnj).
Qed.

Lemma kept_row_optimal k :
  (n ≤ k ≤ P)%nat →
  Forall (λ x, x ≠ Inf) (masked (kept_nbrs k)) → optimal (kept_nbrs k).
Proof.
  intros Hk Hfin i j Hi [Hj Hjfin]%elem_of_reachable Hnj.
  rewrite masked_distance_fmap, Forall_fmap, Forall_forall in Hfin.
  destruct (candidate_finite _ _ _ _ _ _ _ (Hfin i Hi)) as (_ & Hci & _).
  destruct (candidate_finite _ _ _ _ _ _ _ Hjfin) as (_ & Hcj & _).
  pose proof (order_bound k ltac:(lia)) as Horder.
  destruct (decide (j ∈ knn population q k)) as [Hin|Hout].
  - simpl in Hci, Hcj. rewrite <-Hci, <-Hcj.
    apply list_elem_of_fmap in Hi as (a & -> & Ha).
    apply list_elem_of_lookup_total_1 in Hin as (b & Hb & <-).
    assert (b ∉ take n (argsort (masked (knn population q k)))) as Hnb.
    { intros Hb'. apply Hnj. unfold pick.
      by apply (list_elem_of_fmap_2 (λ i : nat, knn population q k !!! i)). }
    pose proof (argsort_take_le _ n a b Ha
                  ltac:(by rewrite masked_distance_fmap, length_fmap) Hnb)
      as Hle.
    rewrite Forall_forall in Horder. pose proof (Horder _ Ha) as Ha'.
    rewrite masked_distance_fmap in Hle.
    rewrite (list_lookup_total_fmap candidate _ a Ha') in Hle.
    by rewrite (list_lookup_total_fmap candidate _ b Hb) in Hle.
  - apply (knn_nearest _ knn_spec population q k i j); [lia| |done|done].
    by eapply pick_elem_of.
Qed.

Lemma widen_optimal fuel : ∀ qs nb d di nb' d',
  di = masked nb →
  (existsb isinf di = false → optimal nb) →
  loop fuel qs nb d di = Return (nb', d') → optimal nb'.
Proof.
  induction fuel as [|fuel IH]; intros qs nb d di nb' d' Hdi Hopt Hret.
  - simpl in Hret. destruct (existsb isinf di); [done|].
    injection Hret as <- <-. by apply Hopt.
  - rewrite widen_step in Hret.
    destruct (existsb isinf di); [|injection Hret as <- <-; by apply Hopt].
    destruct (next_size qs =? 1)%nat; [done|]. cbv zeta in Hret.
    destruct (_ && _); [done|].
    assert (n ≤ next_size qs ≤ P)%nat as Hk
      by (destruct (Nat.ltb_spec P (qs + n)); lia).
    destruct (kept_row intersection_count knn population N vert smp
                excluding_bool q knn_spec Hn _ Hk) as (Hkept & _).
    eapply IH; [exact Hkept| |exact Hret].
    intros Hfin%existsb_isinf_false. apply kept_row_optimal; [done|].
    by rewrite <-Hkept.
Qed.

(** A query of the whole population returns every index once. *)
Lemma knn_all : knn population q P ≡ₚ seq 0 P.
Proof.
  apply submseteq_length_Permutation.
  - apply NoDup_submseteq; [by apply knn_NoDup|].
    intros i Hi. apply elem_of_seq.
    pose proof (knn_bound _ knn_spec population q P i ltac:(done) Hi). lia.
  - by rewrite length_seq, knn_length.
Qed.

Lemma finite_count :
  length (filter (λ x, x ≠ Inf) (masked (knn population q P))) = length reach.
Proof.
  rewrite masked_distance_fmap, length_filter_fmap. unfold reachable.
  by rewrite knn_all.
Qed.

(** With [n] reachable points, the query of the whole population keeps
    finite distances only. *)
Lemma kept_dists_finite :
  (n ≤ length reach)%nat → existsb isinf (kept_dists P) = false.
Proof.
  intros Hreach. apply existsb_isinf_false. rewrite pick_take.
  apply sorted_finite_prefix; [apply argsort_Sorted|].
  by rewrite pick_argsort_Permutation, finite_count.
Qed.

Lemma widen_complete fuel : ∀ qs nb d di e,
  (n ≤ length reach)%nat → (1 ≤ qs)%nat →
  di = masked nb → length nb = n → Forall (λ i, (i < P)%nat) nb →
  loop fuel qs nb d di ≠ Raise e.
Proof.
  induction fuel as [|fuel IH];
    intros qs nb d di e Hreach Hqs Hdi Hlen Hbound Hraise.
  - simpl in Hraise. by destruct (existsb isinf di).
  - rewrite widen_step in Hraise.
    destruct (existsb isinf di) eqn:Hinf; [|done].
    assert (1 ≤ n)%nat as Hn1.
    { destruct (decide (n = 0%nat)) as [Hz|]; [|lia]. exfalso.
      rewrite Hz in Hlen. apply nil_length_inv in Hlen. by subst. }
    assert (n ≤ next_size qs ≤ P)%nat as Hk
      by (destruct (Nat.ltb_spec P (qs + n)); lia).
    destruct (kept_row intersection_count knn population N vert smp
                excluding_bool q knn_spec Hn _ Hk)
      as (Hkept & Hlen' & _ & Hbound').
    destruct (Nat.eqb_spec (next_size qs) 1) as [H1|_].
    + assert (P = 1%nat) as HP by (destruct (Nat.ltb_spec P (qs + n)); lia).
      destruct nb as [|j [|??]]; simpl in Hlen; try lia.
      apply Forall_inv in Hbound. simpl in Hbound.
      assert (j = 0%nat) as -> by lia.
      subst di. rewrite masked_distance_fmap in Hinf. csimpl in Hinf.
      rewrite orb_false_r in Hinf. apply isinf_Inf in Hinf.
      destruct reach as [|j' ?] eqn:Hlist; [simpl in Hreach; lia|].
      assert (j' ∈ reach) as [Hj' Hfin]%elem_of_reachable
        by (rewrite Hlist; left).
      assert (j' = 0%nat) as -> by lia. done.
    + cbv zeta in Hraise.
      destruct (Nat.eqb_spec (next_size qs) P) as [Hfull|_]; simpl in Hraise.
      * rewrite Hfull in Hraise, Hkept, Hlen', Hbound'.
        rewrite kept_dists_finite in Hraise by done.
        eapply IH; [done| |exact Hkept|done|done|exact Hraise]. lia.
      * eapply IH; [done| |exact Hkept|done|done|exact Hraise]. lia.
Qed.

Local Abbreviation row_search :=
  (refine_row intersection_count knn population N vert smp excluding_bool q
     (knn population q n) (straight <$> knn population q n)).

(** The widening loop finds a row exactly when [n] points are reachable. *)
Lemma refine_row_complete :
  (n ≤ length reach)%nat → ∃ nb' d', row_search = Return (nb', d').
Proof.
  intros Hreach. destruct row_search as [[nb' d']|e|] eqn:Hrow.
  - by exists nb', d'.
  - exfalso. unfold refine_row in Hrow.
    destruct (decide (n = 0%nat)) as [Hz|Hz].
    + rewrite widen_finite in Hrow; [done|].
      pose proof (knn_length _ knn_spec population q n Hn) as Hlen.
      rewrite Hz in Hlen at 2. by rewrite (nil_length_inv _ Hlen).
    + revert Hrow. apply widen_complete; [done|lia|done|by apply knn_length|].
      apply Forall_forall. intros i Hi. by eapply knn_bound.
  - exfalso. revert Hrow. apply refine_row_no_Timeout; [done|].
    intros Hz. apply nil_length_inv. by rewrite knn_length.
Qed.

Lemma refine_row_sound nb' d' :
  row_search = Return (nb', d') →
  NoDup nb' ∧ Forall (λ i, i ∈ reach) nb' ∧ optimal nb'
  ∧ (n ≤ length reach)%nat.
Proof.
  intros Hrow.
  destruct (refine_row_Return _ _ _ _ _ _ _ _ knn_spec Hn _ _ Hrow)
    as ((Hlen & _ & _ & Hbound) & Hfin).
  assert (NoDup nb') as Hnodup.
  { unfold refine_row in Hrow. eapply widen_NoDup; [|exact Hrow].
    by apply knn_NoDup. }
  assert (Forall (λ i, i ∈ reach) nb') as Hreach.
  { rewrite Forall_forall in Hbound, Hfin |- *. intros i Hi.
    apply elem_of_reachable. auto. }
  split_and!; [done..| |].
  - unfold refine_row in Hrow. eapply widen_optimal; [done| |exact Hrow].
    intros _. apply knn_optimal.
  - rewrite <-Hlen. apply submseteq_length, NoDup_submseteq; [done|].
    by apply Forall_forall.
Qed.
End row_search.

(** ** The exclusion mask *)

Lemma mark_all_only P : ∀ excluding b b' i,
  mark_all P b excluding = Return b' →
  b' !! i = Some true → b !! i = Some true ∨ names_index P excluding i.
Proof.
  induction excluding as [|e es IH]; intros b b' i Hret Hi; simpl in Hret.
  - injection Hret as <-. by left.
  - unfold mark in Hret. case_bool_decide as He; [|done]. simpl in Hret.
    destruct (IH _ _ _ Hret Hi) as [Hb|(e' & He' & Hm)].
    + destruct (decide (i = Z.to_nat (e `mod` Z.of_nat P))) as [->|Hne].
      * right. exists e. split; [by left|done].
      * left. by rewrite list_lookup_insert_ne in Hb.
    + right. exists e'. split; [by right|done].
Qed.

(** The mask marks the points that the exclusion list names, and no
    other point. *)
Lemma excluding_mask_spec P excluding eb i :
  excluding_mask P excluding = Return eb → (i < P)%nat →
  eb !!! i = true ↔ ∃ ex, excluding = Some ex ∧ names_index P ex i.
Proof.
  intros Hmask Hi. destruct excluding as [ex|]; simpl in Hmask.
  - split.
    + intros Htrue. exists ex. split; [done|].
      destruct (mark_all_Return _ _ _ _ Hmask) as (Hlen & _).
      rewrite length_replicate in Hlen.
      destruct (lookup_lt_is_Some_2 eb i ltac:(lia)) as [b Hb].
      rewrite (list_lookup_total_correct _ _ _ Hb) in Htrue. subst b.
      destruct (mark_all_only _ _ _ _ _ Hmask Hb) as [Hinit|?]; [|done].
      by apply lookup_replicate in Hinit as [? _].
    + intros (? & [= <-] & Hname). by eapply excluding_mask_Some.
  - injection Hmask as <-. split.
    + rewrite (list_lookup_total_correct _ _ _ (lookup_replicate_2 _ _ _ Hi)).
      done.
    + by intros (? & ? & _).
Qed.

(** A point is reachable when the exclusion list does not name it and it
    coincides with the query point or its segment has count 0. *)
Lemma elem_of_reachable_iff
    (oracle : point → point → list point → list simplex → nat)
    (population : list point)
    (vert : option (list point)) (smp : option (list simplex))
    (excluding : option (list Z)) (eb : list bool) (q : point) (j : nat) :
  excluding_mask (length population) excluding = Return eb →
  j ∈ reachable oracle population vert smp eb q
  ↔ (j < length population)%nat
    ∧ (∀ ex, excluding = Some ex → ¬ names_index (length population) ex j)
    ∧ (euclid q (population !!! j) = Sqrt 0
       ∨ oracle q (population !!! j) (default [] vert) (default [] smp) = 0%nat).
Proof.
  intros Hmask. rewrite elem_of_reachable, candidate_distance_unfold.
  split.
  - intros [Hj Hfin]. split; [done|].
    pose proof (excluding_mask_spec _ _ _ _ Hmask Hj) as Hspec.
    destruct (eb !!! j); [done|]. split.
    + intros ex -> Hname. by assert (false = true) by (apply Hspec; eauto).
    + unfold euclid, nonzero in *.
      destruct (Z.eqb_spec (sum_sq (population !!! j) q) 0) as [->|_];
        [by left|right]. simpl in Hfin.
      by destruct (oracle _ _ _ _).
  - intros (Hj & Hfree & Hnear). split; [done|].
    pose proof (excluding_mask_spec _ _ _ _ Hmask Hj) as Hspec.
    destruct (eb !!! j).
    + destruct (proj1 Hspec eq_refl) as (ex & -> & Hname). by destruct (Hfree ex).
    + destruct Hnear as [Hzero| ->].
      * rewrite Hzero. done.
      * by destruct (nonzero _).
Qed.

(** ** What [nearest] finds *)

Lemma for_each_Raise_first {A B} (body : A → outcome B) l e :
  for_each body l = Raise e →
  ∃ l1 a l2,
    l = l1 ++ a :: l2 ∧ body a = Raise e
    ∧ Forall (λ x, ∃ b, body x = Return b) l1.
Proof.
  induction l as [|a l IH]; simpl; [done|]. intros Hraise.
  destruct (body a) as [b|e'|] eqn:Hb; simpl in Hraise; [|..|done].
  - destruct (for_each body l) as [bs|e'|]; simpl in Hraise; [done| |done].
    destruct (IH Hraise) as (l1 & a' & l2 & -> & Ha' & Hl1).
    exists (a :: l1), a', l2. split_and!; [done..|].
    constructor; [by exists b|done].
  - injection Hraise as <-. exists [], a, l. by split_and!.
Qed.

Lemma for_each_ext {A B} (body1 body2 : A → outcome B) l :
  Forall (λ a, body1 a = body2 a) l → for_each body1 l = for_each body2 l.
Proof.
  induction 1 as [|a l Ha _ IH]; simpl; [done|]. by rewrite Ha, IH.
Qed.

(** A loop over the positions of a list is a loop over its entries. *)
Lemma for_each_seq_lookup {A B} `{Inhabited A} (body : A → outcome B) l :
  for_each (λ i : nat, body (l !!! i)) (seq 0 (length l)) = for_each body l.
Proof.
  assert (∀ pre,
    for_each (λ i : nat, body ((pre ++ l) !!! i)) (seq (length pre) (length l))
    = for_each body l) as Hgen.
  { induction l as [|a l IH]; intros pre; [done|]. simpl.
    rewrite list_lookup_total_middle by done.
    replace (pre ++ a :: l) with ((pre ++ [a]) ++ l) by by rewrite <-app_assoc.
    specialize (IH (pre ++ [a])). rewrite length_app in IH. simpl in IH.
    rewrite Nat.add_1_r in IH. by rewrite IH. }
  apply (Hgen []).
Qed.

Section nearest_search.
Variable oracle : point → point → list point → list simplex → nat.
Variable knn : list point → point → nat → list nat.
Variables (query population : list point) (N : Z).
Variables (vert : option (list point)) (smp : option (list simplex)).
Variables (excluding : option (list Z)) (eb : list bool).
Hypothesis knn_spec : cKDTree_spec knn.
Hypothesis Hmask : excluding_mask (length population) excluding = Return eb.
Hypothesis HN : 0 ≤ N ≤ Z.of_nat (length population).

Local Abbreviation reach := (reachable oracle population vert smp eb).
Local Abbreviation n := (Z.to_nat N).
Local Abbreviation search :=
  (λ q, refine_row oracle knn population N vert smp eb q
          (knn population q n)
          ((λ i : nat, euclid q (population !!! i)) <$> knn population q n)).

(** The slow path runs the row search for every query point in turn. *)
Lemma nearest_slow :
  vert ≠ None ∨ excluding ≠ None →
  nearest oracle knn (Arr2 query) (Arr2 population) N vert smp excluding
  = rows ← for_each search query; Return (rows.*1, rows.*2).
Proof.
  intros Hslow. rewrite (nearest_Arr2 _ _ _ _ _ _ _ _ _ Hmask HN).
  rewrite first_guess_spec by done. simpl.
  replace (bool_decide (vert = None) && bool_decide (excluding = None))
    with false.
  2:{ symmetry. apply andb_false_iff.
      destruct Hslow; [left|right]; by apply bool_decide_eq_false. }
  f_equal. rewrite <-(for_each_seq_lookup search query).
  apply for_each_ext, Forall_forall. intros i Hi%elem_of_seq.
  rewrite (list_lookup_total_fmap (λ q, knn population q n)) by lia.
  by rewrite (list_lookup_total_fmap
                (λ q, (λ i : nat, euclid q (population !!! i))
                        <$> knn population q n)) by lia.
Qed.

Lemma nearest_fast :
  vert = None → excluding = None →
  nearest oracle knn (Arr2 query) (Arr2 population) N vert smp excluding
  = Return ((λ q, knn population q n) <$> query,
            (λ q, (λ i : nat, euclid q (population !!! i))
                    <$> knn population q n) <$> query).
Proof.
  intros -> ->. rewrite (nearest_Arr2 _ _ _ _ _ _ _ _ _ Hmask HN).
  by rewrite first_guess_spec.
Qed.

(** Row [i] of a returned table: distinct points, the nearest reachable
    ones; on the slow path they are reachable themselves. *)
Lemma nearest_Return_search nbs ds i q row :
  nearest oracle knn (Arr2 query) (Arr2 population) N vert smp excluding
  = Return (nbs, ds) →
  query !! i = Some q → nbs !! i = Some row →
  NoDup row
  ∧ nearest_reachable oracle population vert smp eb q row
  ∧ (vert ≠ None ∨ excluding ≠ None →
     Forall (λ j, j ∈ reach q) row ∧ (n ≤ length (reach q))%nat).
Proof.
  intros Hret Hq Hrow. assert (n ≤ length population)%nat as Hn by lia.
  destruct (decide (vert = None ∧ excluding = None)) as [[Hv He]|Hslow].
  - rewrite nearest_fast in Hret by done. injection Hret as <- <-.
    rewrite list_lookup_fmap, Hq in Hrow. injection Hrow as <-.
    split_and!; [by apply knn_NoDup|by apply knn_optimal|].
    intros [?|?]; done.
  - assert (vert ≠ None ∨ excluding ≠ None) as Hslow'.
    { destruct vert, excluding; auto; by destruct Hslow. }
    rewrite nearest_slow in Hret by done.
    destruct (for_each search query) as [rows| |] eqn:Hrows; [|done..].
    injection Hret as <- <-. apply for_each_Return in Hrows.
    rewrite list_lookup_fmap in Hrow.
    destruct (rows !! i) as [[nb d]|] eqn:Hr; [|done]. injection Hrow as <-.
    pose proof (Forall2_lookup_lr _ _ _ _ _ _ Hrows Hq Hr) as Hsearch.
    simpl in Hsearch.
    destruct (refine_row_sound _ _ _ _ _ _ _ _ knn_spec Hn _ _ Hsearch)
      as (? & ? & ? & ?).
    by split_and!.
Qed.

(** The slow path returns exactly when every query point has [n]
    reachable points. *)
Lemma nearest_slow_returns :
  vert ≠ None ∨ excluding ≠ None →
  (∃ r, nearest oracle knn (Arr2 query) (Arr2 population) N vert smp excluding
        = Return r)
  ↔ ∀ q, q ∈ query → (n ≤ length (reach q))%nat.
Proof.
  intros Hslow. assert (n ≤ length population)%nat as Hn by lia. split.
  - intros [[nbs ds] Hret] q [i Hq]%list_elem_of_lookup.
    pose proof Hret as Hret'. rewrite nearest_slow in Hret' by done.
    destruct (for_each search query) as [rows| |] eqn:Hrows; [|done..].
    injection Hret' as <- _. apply for_each_Return in Hrows.
    destruct (Forall2_lookup_l _ _ _ _ _ Hrows Hq) as ([nb d] & Hr & _).
    eapply (nearest_Return_search _ _ i q nb Hret Hq); [|done].
    by rewrite list_lookup_fmap, Hr.
  - intros Hall. rewrite nearest_slow by done.
    assert (∃ rows, for_each search query = Return rows) as [rows ->].
    { clear Hslow. induction query as [|q l IH]; [by eexists|]. simpl.
      destruct (refine_row_complete oracle knn population N vert smp eb q
                  knn_spec Hn) as (nb & d & ->).
      { apply Hall. by left. }
      destruct IH as [rows ->]; [intros q' ?; apply Hall; by right|].
      by eexists. }
    by eexists.
Qed.

(** With two points or more in the population, an error of the slow path
    is the module's error for the first query point that has fewer than
    [n] reachable points. *)
Lemma nearest_slow_raises e :
  (2 ≤ length population)%nat →
  nearest oracle knn (Arr2 query) (Arr2 population) N vert smp excluding
  = Raise e →
  ∃ i q,
    query !! i = Some q
    ∧ e = StencilError (CrossingBoundary N q)
    ∧ (length (reach q) < n)%nat
    ∧ ∀ i' q', (i' < i)%nat → query !! i' = Some q' →
        (n ≤ length (reach q'))%nat.
Proof.
  intros HP Hraise. assert (n ≤ length population)%nat as Hn by lia.
  destruct (decide (vert = None ∧ excluding = None)) as [[Hv He]|Hslow].
  { by rewrite nearest_fast in Hraise. }
  assert (vert ≠ None ∨ excluding ≠ None) as Hslow'.
  { destruct vert, excluding; auto; by destruct Hslow. }
  rewrite nearest_slow in Hraise by done.
  destruct (for_each search query) as [rows|e'|] eqn:Hrows; [done| |done].
  injection Hraise as <-.
  apply for_each_Raise_first in Hrows as (l1 & q & l2 & Hquery & Hq & Hl1).
  exists (length l1), q. split_and!.
  - by rewrite Hquery, list_lookup_middle.
  - destruct (refine_row_outcome oracle knn population N vert smp eb q
                knn_spec Hn HP)
      as [(? & ? & Hret & _)|[Hraise _]]; congruence.
  - destruct (decide (n ≤ length (reach q))%nat) as [Henough|]; [|lia].
    destruct (refine_row_complete oracle knn population N vert smp eb q
                knn_spec Hn Henough) as (? & ? & Hret).
    simpl in Hq. congruence.
  - intros i' q' Hi' Hq'. rewrite Hquery, lookup_app_l in Hq' by done.
    rewrite Forall_forall in Hl1.
    destruct (Hl1 q' ltac:(by eapply list_elem_of_lookup_2)) as [[nb d] Hret].
    by apply (refine_row_sound oracle knn population N vert smp eb q'
                knn_spec Hn nb d).
Qed.
End nearest_search.

(** X6. For a lawful index, every row of the neighbour array that
    [nearest] returns, on the fast and on the slow path alike, lists
    pairwise distinct indices of the population. *)
Theorem nearest_rows_distinct
    (oracle : point → point → list point → list simplex → nat)
    (knn : list point → point → nat → list nat)
    (query population : ndarray) (N : Z)
    (vert : option (list point)) (smp : option (list simplex))
    (excluding : option (list Z)) (nbs : list (list nat)) (ds : list (list dist)) :
  cKDTree_spec knn →
  nearest oracle knn query population N vert smp excluding = Return (nbs, ds) →
  ∀ row, row ∈ nbs →
    NoDup row ∧ Forall (λ j, (j < length (rows_of population))%nat) row.
Proof.
  intros Hlaws Hret row [i Hrow]%list_elem_of_lookup.
  destruct (nearest_Return_rows _ _ _ _ _ _ _ _ _ _ Hlaws Hret)
    as (qs & pop & eb & -> & -> & Hmask & HN & Hnbs & _ & Hrows).
  destruct (Hrows i) as (q & row' & drow & Hq & Hrow' & _ & Hok & _).
  { rewrite <-Hnbs. by eapply lookup_lt_Some. }
  simplify_eq. simpl. split; [|apply Hok].
  by eapply (nearest_Return_search oracle knn qs pop N vert smp excluding eb
               Hlaws Hmask HN nbs ds i q row).
Qed.

(** X7. For a lawful index, a row that [nearest] returns holds the
    nearest points among those it may take: no point of the population
    that is left out of the row, is not named by the exclusion list, and
    coincides with the query point or has a segment of count 0, is nearer
    to the query point than a point of the row. *)
Theorem nearest_rows_are_nearest
    (oracle : point → point → list point → list simplex → nat)
    (knn : list point → point → nat → list nat)
    (query population : ndarray) (N : Z)
    (vert : option (list point)) (smp : option (list simplex))
    (excluding : option (list Z)) (nbs : list (list nat)) (ds : list (list dist)) :
  cKDTree_spec knn →
  nearest oracle knn query population N vert smp excluding = Return (nbs, ds) →
  ∀ i q row a j,
    rows_of query !! i = Some q → nbs !! i = Some row →
    a ∈ row →
    (j < length (rows_of population))%nat → j ∉ row →
    (∀ ex, excluding = Some ex →
       ¬ names_index (length (rows_of population)) ex j) →
    (euclid q (rows_of population !!! j) = Sqrt 0
     ∨ oracle q (rows_of population !!! j) (default [] vert) (default [] smp)
       = 0%nat) →
    dist_le (euclid q (rows_of population !!! a))
            (euclid q (rows_of population !!! j)).
Proof.
  intros Hlaws Hret i q row a j Hq Hrow Ha Hj Hnj Hfree Hnear.
  destruct (nearest_Return_inv _ _ _ _ _ _ _ _ _ Hret)
    as (qs & pop & eb & -> & -> & Hmask & HN).
  simpl in *.
  destruct (nearest_Return_search oracle knn qs pop N vert smp excluding eb
              Hlaws Hmask HN nbs ds i q row Hret Hq Hrow) as (_ & Hopt & _).
  apply Hopt; [done| |done].
  by apply (elem_of_reachable_iff oracle pop vert smp excluding eb q j Hmask).
Qed.

(** X8. For a lawful index, two tables, a valid count and a valid
    exclusion list, the slow path of [nearest] returns exactly when every
    query point has at least [N] reachable points; a point is reachable
    when the exclusion list does not name it and it coincides with the
    query point or its segment has count 0. *)
Theorem nearest_returns_iff
    (oracle : point → point → list point → list simplex → nat)
    (knn : list point → point → nat → list nat)
    (query population : list point) (N : Z)
    (vert : option (list point)) (smp : option (list simplex))
    (excluding : option (list Z)) (eb : list bool) :
  cKDTree_spec knn →
  excluding_mask (length population) excluding = Return eb →
  0 ≤ N ≤ Z.of_nat (length population) →
  vert ≠ None ∨ excluding ≠ None →
  (∀ q j,
     j ∈ reachable oracle population vert smp eb q
     ↔ (j < length population)%nat
       ∧ (∀ ex, excluding = Some ex → ¬ names_index (length population) ex j)
       ∧ (euclid q (population !!! j) = Sqrt 0
          ∨ oracle q (population !!! j) (default [] vert) (default [] smp)
            = 0%nat))
  ∧ ((∃ r, nearest oracle knn (Arr2 query) (Arr2 population) N vert smp excluding
           = Return r)
     ↔ ∀ q, q ∈ query →
         (Z.to_nat N ≤ length (reachable oracle population vert smp eb q))%nat).
Proof.
  intros Hlaws Hmask HN Hslow. split.
  - intros q j. by apply elem_of_reachable_iff.
  - by apply nearest_slow_returns.
Qed.

(** X9. For a lawful index and a population of two points or more, an
    error of [nearest] on two tables with a valid count and a valid
    exclusion list is the [StencilError] that names the count and a query
    point: the first query point, in the order of the table, that has
    fewer than [N] reachable points. *)
Theorem nearest_names_first_short
    (oracle : point → point → list point → list simplex → nat)
    (knn : list point → point → nat → list nat)
    (query population : list point) (N : Z)
    (vert : option (list point)) (smp : option (list simplex))
    (excluding : option (list Z)) (eb : list bool) (e : exn) :
  cKDTree_spec knn →
  excluding_mask (length population) excluding = Return eb →
  0 ≤ N ≤ Z.of_nat (length population) →
  (2 ≤ length population)%nat →
  nearest oracle knn (Arr2 query) (Arr2 population) N vert smp excluding
  = Raise e →
  ∃ i q,
    query !! i = Some q
    ∧ e = StencilError (CrossingBoundary N q)
    ∧ (length (reachable oracle population vert smp eb q) < Z.to_nat N)%nat
    ∧ ∀ i' q', (i' < i)%nat → query !! i' = Some q' →
        (Z.to_nat N ≤ length (reachable oracle population vert smp eb q'))%nat.
Proof. intros Hlaws Hmask HN HP. by apply nearest_slow_raises. Qed.

Lemma for_each_fmap_Return {A B} (body : A → outcome B) (f : A → B) l :
  (∀ a, a ∈ l → body a = Return (f a)) → for_each body l = Return (f <$> l).
Proof.
  induction l as [|a l IH]; intros Hbody; simpl; [done|].
  rewrite Hbody by (by left). rewrite IH; [done|].
  intros a' ?. apply Hbody. by right.
Qed.

(** X10. For a lawful index: when the [N] nearest points of every query
    point are reachable, the boundary and the exclusion list change
    nothing; [nearest] returns what it returns without them. *)
Theorem nearest_unblocked
    (oracle : point → point → list point → list simplex → nat)
    (knn : list point → point → nat → list nat)
    (query population : list point) (N : Z)
    (vert : option (list point)) (smp : option (list simplex))
    (excluding : option (list Z)) (eb : list bool) :
  cKDTree_spec knn →
  excluding_mask (length population) excluding = Return eb →
  0 ≤ N ≤ Z.of_nat (length population) →
  (∀ q j, q ∈ query → j ∈ knn population q (Z.to_nat N) →
          j ∈ reachable oracle population vert smp eb q) →
  nearest oracle knn (Arr2 query) (Arr2 population) N vert smp excluding
  = nearest oracle knn (Arr2 query) (Arr2 population) N None None None.
Proof.
  intros Hlaws Hmask HN Hfree.
  rewrite (nearest_fast oracle knn query population N None None None
             (replicate (length population) false) Hlaws eq_refl HN eq_refl eq_refl).
  destruct (decide (vert = None ∧ excluding = None)) as [[Hv He]|Hslow].
  { by apply (nearest_fast oracle knn query population N vert smp excluding
                eb Hlaws Hmask HN). }
  assert (vert ≠ None ∨ excluding ≠ None) as Hslow'.
  { destruct vert, excluding; auto; by destruct Hslow. }
  rewrite (nearest_slow oracle knn query population N vert smp excluding eb
             Hlaws Hmask HN Hslow').
  rewrite (for_each_fmap_Return _
             (λ q, (knn population q (Z.to_nat N),
                    (λ i : nat, euclid q (population !!! i))
                      <$> knn population q (Z.to_nat N)))).
  - simpl. by rewrite <-!list_fmap_compose.
  - intros q Hq. unfold refine_row. apply widen_finite.
    apply existsb_isinf_false. rewrite masked_distance_fmap, Forall_fmap.
    apply Forall_forall. intros j Hj. simpl.
    by apply (elem_of_reachable oracle population vert smp eb q j), Hfree.
Qed.

(** ** What [stencil_network] returns *)

(** X11. For a lawful index, every nonempty row of a stencil that
    [stencil_network] returns starts with a point at the position of the
    node that owns the row: the node itself or a duplicate of it. *)
Theorem stencil_starts_at_node
    (oracle : point → point → list point → list simplex → nat)
    (knn : list point → point → nat → list nat)
    (node_connectivity : list (nat * nat) → Z)
    (nodes : ndarray) (C N : option Z)
    (vert : option (list point)) (smp : option (list simplex))
    (s : list (list nat)) :
  cKDTree_spec knn →
  stencil_network oracle knn node_connectivity nodes C N vert smp = Return s →
  ∀ i node row first,
    rows_of nodes !! i = Some node → s !! i = Some row →
    row !! 0%nat = Some first →
    euclid node (rows_of nodes !!! first) = Sqrt 0.
Proof.
  intros Hlaws Hret i node row first Hnode Hrow Hfirst.
  apply stencil_network_Return in Hret as (k & dx & Hret).
  destruct (nearest_Return_rows _ _ _ _ _ _ _ _ _ _ Hlaws Hret)
    as (qs & pop & eb & -> & [= <-] & Hmask & Hk & _ & _ & Hrows).
  simpl in Hnode |- *.
  destruct (Hrows i) as (q & row' & drow & Hq & Hrow' & _ & Hok & _).
  { by eapply lookup_lt_Some. }
  rewrite Hnode in Hq. injection Hq as <-.
  rewrite Hrow in Hrow'. injection Hrow' as <-.
  destruct (nearest_Return_search oracle knn qs qs k vert smp None eb
              Hlaws Hmask Hk s dx i node row Hret Hnode Hrow) as (_ & Hopt & _).
  assert (qs !!! i = node) as Hi by by apply list_lookup_total_correct.
  assert (i ∈ reachable oracle qs vert smp eb node) as Hreach.
  { apply (elem_of_reachable_iff oracle qs vert smp None eb node i Hmask).
    split_and!; [by eapply lookup_lt_Some|done|left].
    rewrite Hi. unfold euclid. by rewrite sum_sq_diag. }
  assert (dist_le (euclid node (qs !!! first)) (euclid node (qs !!! i))) as Hle.
  { destruct (decide (i ∈ row)) as [Hin|Hout].
    - destruct Hok as (_ & -> & Hsorted & _).
      apply Sorted_StronglySorted in Hsorted; [|apply _].
      destruct row as [|first' rest]; [done|]. injection Hfirst as ->.
      apply elem_of_cons in Hin as [->|Hin]; [done|].
      csimpl in Hsorted. apply StronglySorted_cons in Hsorted as [Hall _].
      rewrite Forall_fmap, Forall_forall in Hall. by apply Hall.
    - apply Hopt; [by eapply list_elem_of_lookup_2|done..]. }
  rewrite Hi in Hle. unfold euclid in *. rewrite sum_sq_diag in Hle.
  unfold dist_le in Hle. simpl in Hle. f_equal.
  pose proof (sum_sq_nonneg (qs !!! first) node). lia.
Qed.

(** X12. Without a connectivity target and without a boundary, for a
    lawful index and a table of [P] nodes: [stencil_network] with a size
    [N], [0 ≤ N ≤ P], returns a stencil of shape (P, N); with no size it
    takes [min(P, 10)] and returns a stencil of that width; with a size
    above [P] it raises the invalid-count error of [nearest]. *)
Theorem stencil_network_fixed_size
    (oracle : point → point → list point → list simplex → nat)
    (knn : list point → point → nat → list nat)
    (node_connectivity : list (nat * nat) → Z)
    (nodes : list point) (smp : option (list simplex)) :
  cKDTree_spec knn →
  (∀ N, 0 ≤ N ≤ Z.of_nat (length nodes) →
     ∃ s, stencil_network oracle knn node_connectivity (Arr2 nodes)
            None (Some N) None smp = Return s
          ∧ has_shape (length nodes) (Z.to_nat N) s)
  ∧ (∃ s, stencil_network oracle knn node_connectivity (Arr2 nodes)
            None None None smp = Return s
          ∧ has_shape (length nodes) (length nodes `min` 10) s)
  ∧ (∀ N, Z.of_nat (length nodes) < N →
     stencil_network oracle knn node_connectivity (Arr2 nodes)
       None (Some N) None smp
     = Raise (StencilError (TooFewPoints N (length nodes)))).
Proof.
  intros Hlaws.
  assert (∀ N, 0 ≤ N ≤ Z.of_nat (length nodes) →
            nearest oracle knn (Arr2 nodes) (Arr2 nodes) N None smp None
            = Return ((λ q, knn nodes q (Z.to_nat N)) <$> nodes,
                      (λ q, (λ i : nat, euclid q (nodes !!! i))
                              <$> knn nodes q (Z.to_nat N)) <$> nodes)
            ∧ has_shape (length nodes) (Z.to_nat N)
                ((λ q, knn nodes q (Z.to_nat N)) <$> nodes)) as Hfixed.
  { intros N HN. split.
    - by apply (nearest_fast oracle knn nodes nodes N None smp None
                  (replicate (length nodes) false) Hlaws eq_refl HN).
    - split; [by rewrite length_fmap|]. apply Forall_fmap, Forall_forall.
      intros q _. simpl. apply knn_length; [done|lia]. }
  split_and!.
  - intros N HN. destruct (Hfixed N HN) as [Hret Hshape].
    eexists. unfold stencil_network. simpl. rewrite Hret. simpl. done.
  - destruct (Hfixed (Z.min (Z.of_nat (length nodes)) 10) ltac:(lia))
      as [Hret Hshape].
    eexists. unfold stencil_network. simpl. rewrite Hret. simpl.
    split; [done|]. by replace (length nodes `min` 10)%nat
      with (Z.to_nat (Z.of_nat (length nodes) `min` 10)) by lia.
  - intros N HN. unfold stencil_network, nearest. simpl.
    by rewrite (proj2 (Z.ltb_lt _ _) HN).
Qed.

(** X13. For a lawful index, a stencil that [stencil_network] returns
    is a table with one row per node and one width [k], at most the
    number of nodes and at least 2 when a connectivity target is given;
    every row lists pairwise distinct node indices, and so every edge of
    the graph of the stencil joins two nodes of the table. *)
Theorem stencil_network_table
    (oracle : point → point → list point → list simplex → nat)
    (knn : list point → point → nat → list nat)
    (node_connectivity : list (nat * nat) → Z)
    (nodes : ndarray) (C N : option Z)
    (vert : option (list point)) (smp : option (list simplex))
    (s : list (list nat)) :
  cKDTree_spec knn →
  stencil_network oracle knn node_connectivity nodes C N vert smp = Return s →
  ∃ k : nat,
    (k ≤ length (rows_of nodes))%nat
    ∧ (C ≠ None → (2 ≤ k)%nat)
    ∧ has_shape (length (rows_of nodes)) k s
    ∧ (∀ row, row ∈ s →
         NoDup row ∧ Forall (λ j, (j < length (rows_of nodes))%nat) row)
    ∧ (∀ i e, (i, e) ∈ stencils_to_edges s →
         (i < length (rows_of nodes))%nat ∧ (e < length (rows_of nodes))%nat).
Proof.
  intros Hlaws Hret.
  assert (∃ k dx, (C ≠ None → 2 ≤ k)
                  ∧ nearest oracle knn nodes nodes k vert smp None
                    = Return (s, dx)) as (k & dx & HC & Htry).
  { unfold stencil_network in Hret. destruct C as [C|].
    - destruct (nearest oracle knn nodes nodes 2 vert smp None)
        as [[s2 dx2]| |] eqn:Htry2; [|done..].
      simpl in Hret.
      destruct (nearest_Return_inv _ _ _ _ _ _ _ _ _ Htry2)
        as (rows & ? & ? & -> & _).
      destruct (grow_Return _ _ _ _ _ _ _ _ _ _ _ _ Htry2 Hret)
        as (k & dx & ? & Htry & _).
      by exists k, dx.
    - destruct (stencil_network_Return oracle knn node_connectivity nodes
                  None N vert smp s Hret) as (k & dx & ?).
      by exists k, dx. }
  destruct (nearest_Return_rows _ _ _ _ _ _ _ _ _ _ Hlaws Htry)
    as (qs & pop & eb & -> & [= <-] & Hmask & Hk & Hs & _ & Hrows).
  simpl.
  assert (Forall (λ row, length row = Z.to_nat k ∧ NoDup row
                         ∧ Forall (λ j, (j < length qs)%nat) row) s) as Hall.
  { apply Forall_lookup. intros i row Hrow.
    destruct (Hrows i) as (q & row' & drow & Hq & Hrow' & _ & Hok & _).
    { rewrite <-Hs. by eapply lookup_lt_Some. }
    rewrite Hrow in Hrow'. injection Hrow' as <-.
    split_and!; [apply Hok| |apply Hok].
    by eapply (nearest_Return_search oracle knn qs qs k vert smp None eb
                 Hlaws Hmask Hk s dx i q row). }
  rewrite Forall_forall in Hall.
  exists (Z.to_nat k). split_and!.
  - lia.
  - intros HC'%HC. lia.
  - split; [done|]. apply Forall_forall. intros row Hrow. by apply Hall.
  - intros row Hrow. by apply Hall.
  - intros i e.
    rewrite (stencils_to_edges_pairs (Z.to_nat k)), elem_of_row_entry_pairs.
    + intros (row & Hrow & He). split.
      * rewrite <-Hs. by eapply lookup_lt_Some.
      * destruct (Hall row ltac:(by eapply list_elem_of_lookup_2))
          as (_ & _ & Hbound).
        rewrite Forall_forall in Hbound. by apply Hbound.
    + apply Forall_forall. intros row Hrow. by apply Hall.
Qed.

(** * Further examples *)

Lemma nearest_rows_distinct_example :
  cKDTree_spec brute_knn
  ∧ nearest wall_crossing brute_knn (Arr2 line4) (Arr2 line4) 2
      (Some [[2; 5]]) None None
    = Return ([[0; 1]; [1; 0]; [2; 3]; [3; 2]]%nat,
              [[Sqrt 0; Sqrt 1]; [Sqrt 0; Sqrt 1];
               [Sqrt 0; Sqrt 9]; [Sqrt 0; Sqrt 9]])
  ∧ NoDup [3; 2]%nat.
Proof.
  split; [exact brute_knn_spec|]. split; [by vm_compute|].
  apply (nearest_rows_distinct wall_crossing brute_knn (Arr2 line4) (Arr2 line4)
           2 (Some [[2; 5]]) None None
           [[0; 1]; [1; 0]; [2; 3]; [3; 2]]%nat
           [[Sqrt 0; Sqrt 1]; [Sqrt 0; Sqrt 1];
            [Sqrt 0; Sqrt 9]; [Sqrt 0; Sqrt 9]]
           brute_knn_spec).
  - by vm_compute.
  - do 3 right. left.
Defined.

(** The nearest point excluded: the row of the first point holds the
    second point, which is nearer than the third. *)
Lemma nearest_rows_are_nearest_example :
  cKDTree_spec brute_knn
  ∧ nearest no_crossing brute_knn (Arr2 line4) (Arr2 line4) 1
      None None (Some [0])
    = Return ([[1]; [1]; [2]; [3]]%nat,
              [[Sqrt 1]; [Sqrt 0]; [Sqrt 0]; [Sqrt 0]])
  ∧ dist_le (euclid [0; 0] [1; 0]) (euclid [0; 0] [3; 0]).
Proof.
  split; [exact brute_knn_spec|]. split; [by vm_compute|].
  apply (nearest_rows_are_nearest no_crossing brute_knn (Arr2 line4) (Arr2 line4)
           1 None None (Some [0]) [[1]; [1]; [2]; [3]]%nat
           [[Sqrt 1]; [Sqrt 0]; [Sqrt 0]; [Sqrt 0]]
           brute_knn_spec eq_refl 0%nat [0; 0] [1%nat] 1%nat 2%nat).
  - done.
  - done.
  - left.
  - simpl. lia.
  - by intros ?%list_elem_of_singleton.
  - intros ex [= <-] (e & ->%list_elem_of_singleton & He). done.
  - by right.
Defined.

Lemma nearest_returns_iff_example :
  cKDTree_spec brute_knn
  ∧ excluding_mask (length line4) None = Return [false; false; false; false]
  ∧ 0 ≤ 2 ≤ Z.of_nat (length line4)
  ∧ (Some [[2; 5]] ≠ None ∨ @None (list Z) ≠ None)
  ∧ ((∃ r, nearest wall_crossing brute_knn (Arr2 line4) (Arr2 line4) 2
             (Some [[2; 5]]) None None = Return r)
     ↔ ∀ q, q ∈ line4 →
         (Z.to_nat 2
          ≤ length (reachable wall_crossing line4 (Some [[2; 5]%Z]) None
                      [false; false; false; false] q))%nat).
Proof.
  assert (0 ≤ 2 ≤ Z.of_nat (length line4)) as HN by (simpl; lia).
  assert (Some [[2; 5]] ≠ None ∨ @None (list Z) ≠ None) as Hslow by by left.
  split; [exact brute_knn_spec|]. split; [done|].
  split; [exact HN|]. split; [exact Hslow|].
  exact (proj2 (nearest_returns_iff wall_crossing brute_knn line4 line4 2
                  (Some [[2; 5]]) None None [false; false; false; false]
                  brute_knn_spec eq_refl HN Hslow)).
Defined.

(** Three neighbours with the wall: the first point has two reachable
    points only. *)
Lemma nearest_names_first_short_example :
  cKDTree_spec brute_knn
  ∧ nearest wall_crossing brute_knn (Arr2 line4) (Arr2 line4) 3
      (Some [[2; 5]]) None None
    = Raise (StencilError (CrossingBoundary 3 [0; 0]))
  ∧ ∃ i q,
      line4 !! i = Some q
      ∧ StencilError (CrossingBoundary 3 [0; 0])
        = StencilError (CrossingBoundary 3 q)
      ∧ (length (reachable wall_crossing line4 (Some [[2; 5]%Z]) None
                   [false; false; false; false] q) < Z.to_nat 3)%nat.
Proof.
  split; [exact brute_knn_spec|]. split; [by vm_compute|].
  destruct (nearest_names_first_short wall_crossing brute_knn line4 line4 3
              (Some [[2; 5]]) None None [false; false; false; false]
              (StencilError (CrossingBoundary 3 [0; 0]))
              brute_knn_spec eq_refl)
    as (i & q & Hq & He & Hshort & _);
    [simpl; lia|simpl; lia|by vm_compute|].
  by exists i, q.
Defined.

(** A wall beyond all the points blocks nothing. *)
Lemma nearest_unblocked_example :
  cKDTree_spec brute_knn
  ∧ nearest wall_crossing brute_knn (Arr2 line4) (Arr2 line4) 2
      (Some [[10; 5]]) None None
    = nearest wall_crossing brute_knn (Arr2 line4) (Arr2 line4) 2
        None None None.
Proof.
  split; [exact brute_knn_spec|].
  apply (nearest_unblocked wall_crossing brute_knn line4 line4 2
           (Some [[10; 5]]) None None [false; false; false; false]
           brute_knn_spec eq_refl).
  - simpl. lia.
  - assert (Forall
              (λ q, Forall
                      (λ j, j ∈ reachable wall_crossing line4 (Some [[10; 5]])
                                  None [false; false; false; false] q)
                      (brute_knn line4 q (Z.to_nat 2)))
              line4) as Hall.
    { apply (bool_decide_unpack _). by vm_compute. }
    intros q j Hq Hj. rewrite Forall_forall in Hall.
    specialize (Hall q Hq). rewrite Forall_forall in Hall. by apply Hall.
Defined.

Lemma stencil_starts_at_node_example :
  cKDTree_spec brute_knn
  ∧ stencil_network wall_crossing brute_knn edge_count_connectivity
      (Arr2 line4) None (Some 2) (Some [[2; 5]]) None
    = Return [[0; 1]; [1; 0]; [2; 3]; [3; 2]]%nat
  ∧ euclid [3; 0] (line4 !!! 2%nat) = Sqrt 0.
Proof.
  split; [exact brute_knn_spec|]. split; [by vm_compute|].
  by apply (stencil_starts_at_node wall_crossing brute_knn
              edge_count_connectivity (Arr2 line4) None (Some 2)
              (Some [[2; 5]]) None [[0; 1]; [1; 0]; [2; 3]; [3; 2]]%nat
              brute_knn_spec eq_refl 2%nat [3; 0] [2; 3]%nat 2%nat).
Defined.

Lemma stencil_network_fixed_size_example :
  cKDTree_spec brute_knn
  ∧ ∃ s, stencil_network no_crossing brute_knn edge_count_connectivity
           (Arr2 line4) None None None None = Return s
         ∧ has_shape (length line4) (length line4 `min` 10) s.
Proof.
  split; [exact brute_knn_spec|].
  exact (proj1 (proj2 (stencil_network_fixed_size no_crossing brute_knn
                         edge_count_connectivity line4 None brute_knn_spec))).
Defined.

Lemma stencil_network_table_example :
  cKDTree_spec brute_knn
  ∧ stencil_network no_crossing brute_knn edge_count_connectivity
      (Arr2 line4) (Some 12) None None None
    = Return [[0; 1; 2]; [1; 0; 2]; [2; 1; 0]; [3; 2; 1]]%nat
  ∧ ∃ k : nat,
      (2 ≤ k ≤ 4)%nat
      ∧ has_shape 4 k [[0; 1; 2]; [1; 0; 2]; [2; 1; 0]; [3; 2; 1]]%nat.
Proof.
  split; [exact brute_knn_spec|]. split; [by vm_compute|].
  destruct (stencil_network_table no_crossing brute_knn edge_count_connectivity
              (Arr2 line4) (Some 12) None None None
              [[0; 1; 2]; [1; 0; 2]; [2; 1; 0]; [3; 2; 1]]%nat
              brute_knn_spec eq_refl)
    as (k & Hk & HC & Hshape & _).
  exists k. split; [|exact Hshape].
  split; [by apply HC|exact Hk].
Defined.
